(** * A lexer and a recursive-descent parser for a small imperative language

    Shallow embedding of [ProjectCC-Attempt2.cpp]: the [Lexer] class (one
    [std::regex] of eight capture groups driven by an [sregex_iterator]) and
    the [Parser] class (a cursor into the token vector, two diagnostic stacks,
    [runtime_error] exceptions). [ProjectCC-Attempt1.cpp] is an earlier
    draft of the same program (tokens without line numbers, placeholder
    statement parsers, no bracket stacks) and is not modelled.

    Conventions of the embedding.
    - [std::string] is [string]; the scanner works on its characters
      ([list ascii], one element per [char]).
    - [int line] is an unbounded [Z]; [tokenize_line_fits] bounds every line
      number by the length of the source plus one, so the counter stays
      inside [int] for every source shorter than 2^31 - 1 characters.
    - [size_t position] is a [nat]; the parser never moves it past
      [tokens.size()].
    - [tokens[i]] with [i] outside the vector, and [pop]/[top] of an empty
      [std::stack], are undefined behaviour in C++; the embedding stops with
      an explicit [Undefined] outcome there.
    - [unique_ptr<ASTNode>] is [option ASTNode], [nullptr] is [None].
    - Loops and recursive calls run on fuel; [tokenize_total] and
      [sat_parse] show that the fuel [tokenize] and [parse] start with is
      never used up. *)

From Stdlib Require Import List String Ascii ZArith Lia Bool Arith.
From Stdlib Require Import Sorted DecimalString.
Import ListNotations.

Set Warnings "-register-all".
Open Scope string_scope.

(** ** Characters and character classes *)

Definition LF : ascii := "010"%char.
Definition CR : ascii := "013"%char.
Definition TAB : ascii := "009"%char.
Definition DQUOTE : ascii := "034"%char.

(** A one-line-feed string, for writing sources that contain a newline. *)
Definition nl : string := String LF EmptyString.

Definition in_range (lo hi c : ascii) : bool :=
  Nat.leb (nat_of_ascii lo) (nat_of_ascii c)
  && Nat.leb (nat_of_ascii c) (nat_of_ascii hi).

(** The class [a-zA-Z_]. *)
Definition ident_start (c : ascii) : bool :=
  in_range "a" "z" c || in_range "A" "Z" c || Ascii.eqb c "_".

(** The class [a-zA-Z0-9_]. *)
Definition ident_part (c : ascii) : bool :=
  in_range "a" "z" c || in_range "A" "Z" c || in_range "0" "9" c
  || Ascii.eqb c "_".

(** The punctuation class: semicolon, parentheses, braces, angle brackets,
    square brackets and comma. *)
Definition punctuation_char (c : ascii) : bool :=
  existsb (Ascii.eqb c) (list_ascii_of_string ";(){}<>[],").

(** The blank class: space and tab. *)
Definition blank_char (c : ascii) : bool :=
  Ascii.eqb c " " || Ascii.eqb c TAB.

(** The ECMAScript atom [.] matches every character except the line
    terminators; for [char] these are line feed and carriage return. *)
Definition line_terminator (c : ascii) : bool :=
  Ascii.eqb c LF || Ascii.eqb c CR.

Definition any_char (c : ascii) : bool := negb (line_terminator c).

(** ** Tokens *)

Inductive TokenType : Type :=
| KEYWORD
| IDENTIFIER
| LITERAL
| OPERATOR
| PUNCTUATION
| UNKNOWN.

Definition TokenType_eqb (a b : TokenType) : bool :=
  match a, b with
  | KEYWORD, KEYWORD | IDENTIFIER, IDENTIFIER | LITERAL, LITERAL
  | OPERATOR, OPERATOR | PUNCTUATION, PUNCTUATION | UNKNOWN, UNKNOWN => true
  | _, _ => false
  end.

Record Token : Type := mkToken {
  type : TokenType;
  value : string;
  line : Z
}.

(** ** The token pattern

    The pattern is one alternation of eight capture groups and nothing
    follows a group, so under the ECMAScript rules (alternatives tried left
    to right, the first one that matches wins) a match at a position is the
    match of the first group that matches there. Each matcher below returns
    the number of characters its group consumes at the head of [s]. *)
Module Regex.

Fixpoint starts_with (pre s : list ascii) : bool :=
  match pre, s with
  | [], _ => true
  | _ :: _, [] => false
  | p :: pre', c :: s' => Ascii.eqb p c && starts_with pre' s'
  end.

(** [(w1|w2|...)] with literal words: the first word that is a prefix. *)
Fixpoint first_word (words : list string) (s : list ascii) : option nat :=
  match words with
  | [] => None
  | w :: words' =>
      if starts_with (list_ascii_of_string w) s then Some (String.length w)
      else first_word words' s
  end.

(** Length of the longest prefix whose characters satisfy [p] (a greedy
    [[...]*]). *)
Fixpoint span (p : ascii -> bool) (s : list ascii) : nat :=
  match s with
  | c :: s' => if p c then S (span p s') else 0
  | [] => 0
  end.

(** Group 1: the keyword alternatives, in the order of the pattern. *)
Definition keywords : list string :=
  ["std"; "ifstream"; "ofstream"; "fstream"; "string"; "while"; "if"; "else";
   "return"; "int"].

(** Group 4: the operator alternatives, in the order of the pattern. Once
    the C++ string escapes are removed, the alternative written between
    [-] and [<] is an escaped bar followed by a slash: the two characters
    [|/]. The pattern has no alternative for a lone [!], [=], [*] or [/]. *)
Definition operators : list string :=
  ["::"; "."; "<<"; ">>"; "&&"; "++"; "--"; "<="; ">="; "=="; "!="; "+=";
   "-="; "/="; "+"; "-"; "|/"; "<"; ">"].

Definition group1 (s : list ascii) : option nat := first_word keywords s.

(** Group 2, the identifier: one character of [ident_start], then a greedy
    star over [ident_part]. *)
Definition group2 (s : list ascii) : option nat :=
  match s with
  | c :: s' => if ident_start c then Some (S (span ident_part s')) else None
  | [] => None
  end.

(** The tail of group 3, a lazy star over [.] and the closing double quote:
    the star stops at the first double quote and cannot step over a line
    terminator. The result counts the closing quote. *)
Fixpoint lazy_to_quote (s : list ascii) : option nat :=
  match s with
  | [] => None
  | c :: s' =>
      if Ascii.eqb c DQUOTE then Some 1
      else if any_char c then option_map S (lazy_to_quote s')
      else None
  end.

(** Group 3, the literal: a double quote, then [lazy_to_quote]. *)
Definition group3 (s : list ascii) : option nat :=
  match s with
  | c :: s' =>
      if Ascii.eqb c DQUOTE then option_map S (lazy_to_quote s') else None
  | [] => None
  end.

Definition group4 (s : list ascii) : option nat := first_word operators s.

Definition one_char (p : ascii -> bool) (s : list ascii) : option nat :=
  match s with
  | c :: _ => if p c then Some 1 else None
  | [] => None
  end.

(** Group 5: one character of [punctuation_char]. *)
Definition group5 (s : list ascii) : option nat := one_char punctuation_char s.

(** Group 6: one or more of [blank_char], greedy. *)
Definition group6 (s : list ascii) : option nat :=
  match span blank_char s with
  | 0 => None
  | n => Some n
  end.

(** Group 7: a line feed. *)
Definition group7 (s : list ascii) : option nat :=
  one_char (fun c => Ascii.eqb c LF) s.

(** Group 8: the atom [.] alone. *)
Definition group8 (s : list ascii) : option nat := one_char any_char s.

Definition groups : list (list ascii -> option nat) :=
  [group1; group2; group3; group4; group5; group6; group7; group8].

(** The first group, numbered from [k], that matches at the head of [s],
    with the length of its match. *)
Fixpoint first_group (k : nat) (gs : list (list ascii -> option nat))
    (s : list ascii) : option (nat * nat) :=
  match gs with
  | [] => None
  | g :: gs' =>
      match g s with
      | Some len => Some (k, len)
      | None => first_group (S k) gs' s
      end
  end.

(** A match of [tokenPatterns] anchored at the head of [s]:
    (group number, length). *)
Definition match_here (s : list ascii) : option (nat * nat) :=
  first_group 1 groups s.

(** [regex_search]: the leftmost position of [s] at which the pattern
    matches; characters at which no group matches are stepped over. The
    result is (characters stepped over, group number, length). *)
Fixpoint regex_search (s : list ascii) : option (nat * nat * nat) :=
  match match_here s with
  | Some (g, len) => Some (0, g, len)
  | None =>
      match s with
      | [] => None
      | _ :: s' =>
          match regex_search s' with
          | Some (skipped, g, len) => Some (S skipped, g, len)
          | None => None
          end
      end
  end.

(** What the loop reads off an [smatch]: which group matched
    ([match[k].matched]), where ([match.position()]) and the matched text
    ([match.str()]). *)
Record smatch : Type := mkMatch {
  group : nat;
  position : nat;
  str : string
}.

(** The sequence an [sregex_iterator] walks through: successive searches,
    each resuming where the previous match ended. [pos] is the offset of [s]
    in the whole source. Every match is at least one character long, so
    [fuel] above the length of [s] is never used up ([matches_fuel]). *)
Fixpoint matches_from (fuel pos : nat) (s : list ascii)
    : option (list smatch) :=
  match fuel with
  | 0 => None
  | S fuel' =>
      match regex_search s with
      | None => Some []
      | Some (skipped, g, len) =>
          let m := mkMatch g (pos + skipped)
                     (string_of_list_ascii (firstn len (skipn skipped s))) in
          option_map (cons m)
            (matches_from fuel' (pos + skipped + len)
               (skipn (skipped + len) s))
      end
  end.

Definition sregex_iterator (source : string) : option (list smatch) :=
  let s := list_ascii_of_string source in
  matches_from (S (List.length s)) 0 s.

End Regex.

(** ** The lexer *)
Module Lexer.

Import Regex.

(** The mutable members of [Lexer] that [tokenize] touches: [cur_line] is
    the member [line] (the name [line] is the field of [Token]);
    [lineStack] is written at every brace and never read. *)
Record State : Type := mkState {
  cur_line : Z;
  lineStack : list Z
}.

(** [Lexer(source)] starts with [line(1)] and an empty stack. *)
Definition init : State := mkState 1 [].

(** One turn of the [for] loop over the matches: the token pushed on
    [tokens], if any, and the members afterwards. *)
Definition body (m : smatch) (st : State) : option Token * State :=
  let tok ty := Some (mkToken ty (str m) (cur_line st)) in
  match group m with
  | 1 => (tok KEYWORD, st)
  | 2 => (tok IDENTIFIER, st)
  | 3 => (tok LITERAL, st)
  | 4 => (tok OPERATOR, st)
  | 5 =>
      (tok PUNCTUATION,
       if String.eqb (str m) "{" || String.eqb (str m) "}"
       then mkState (cur_line st) (cur_line st :: lineStack st)
       else st)
  | 6 => (None, st)
  | 7 => (None, mkState (cur_line st + 1) (lineStack st))
  | _ => (tok UNKNOWN, st)
  end.

(** The loop, keeping with each token the offset of the match it was built
    from. [tokens.push_back] appends, so the tokens come out in match
    order. *)
Fixpoint scan (ms : list smatch) (st : State) : list (nat * Token) :=
  match ms with
  | [] => []
  | m :: ms' =>
      let (emitted, st') := body m st in
      match emitted with
      | Some t => (position m, t) :: scan ms' st'
      | None => scan ms' st'
      end
  end.

(** [Lexer(source).tokenize()] with the start offset of every token. The
    result is [None] only when the iterator runs out of fuel, which it never
    does ([tokenize_total]). *)
Definition tokenize_at (source : string) : option (list (nat * Token)) :=
  option_map (fun ms => scan ms init) (sregex_iterator source).

(** [Lexer(source).tokenize()] *)
Definition tokenize (source : string) : option (list Token) :=
  option_map (map snd) (tokenize_at source).

End Lexer.

(** Tokens written by kind, text and line. *)
Definition Keyword (text : string) (ln : Z) : Token :=
  mkToken KEYWORD text ln.
Definition Identifier (text : string) (ln : Z) : Token :=
  mkToken IDENTIFIER text ln.
Definition Literal (text : string) (ln : Z) : Token :=
  mkToken LITERAL text ln.
Definition Operator (text : string) (ln : Z) : Token :=
  mkToken OPERATOR text ln.
Definition Punctuation (text : string) (ln : Z) : Token :=
  mkToken PUNCTUATION text ln.
Definition Unknown (text : string) (ln : Z) : Token :=
  mkToken UNKNOWN text ln.

(** ** Syntax trees

    The class hierarchy under [ASTNode] as one sum type. A [DeclarationNode]
    owns a vector of [IdentifierNode]s; each is kept by its [name]. *)
Inductive ASTNode : Type :=
| NumberNode (value : string)
| IdentifierNode (name : string)
| BinaryOperationNode (op : string) (left right : option ASTNode)
| AssignmentNode (identifier : option string) (expression : option ASTNode)
| DeclarationNode (type : string) (identifiers : list string)
| UnaryOperationNode (op : string) (right : option ASTNode)
| ForLoopNode (initialization condition increment body : option ASTNode)
| WhileLoopNode (condition body : option ASTNode).

(** [std::to_string(int)] *)
Definition to_string (z : Z) : string := NilZero.string_of_int (Z.to_int z).

(** ** The parser *)
Module Parser.

(** The members of [Parser]. The top of a stack is the head of its list. *)
Record State : Type := mkState {
  tokens : list Token;
  position : nat;
  bracketStack : list ascii;
  lineStack : list Z
}.

(** [Parser(tokens)] *)
Definition init (toks : list Token) : State := mkState toks 0 [] [].

(** Operations whose behaviour C++ leaves undefined. *)
Inductive UB : Type :=
| ReadPastEnd (index : nat)   (* tokens[index] with index >= tokens.size() *)
| ReadBeforeBegin             (* tokens[position - 1] with position = 0 *)
| PopEmpty                    (* pop() of an empty stack *)
| TopEmpty.                   (* top() of an empty stack *)

(** How a member function ends, with the members at that moment. *)
Inductive Outcome (A : Type) : Type :=
| Return (a : A) (p : State)
| Throw (what : string) (p : State)     (* throw runtime_error(what) *)
| Undefined (u : UB) (p : State)
| OutOfFuel.

Arguments Return {A} a p.
Arguments Throw {A} what p.
Arguments Undefined {A} u p.
Arguments OutOfFuel {A}.

Definition M (A : Type) : Type := State -> Outcome A.

Definition ret {A} (a : A) : M A := fun p => Return a p.

Definition bind {A B} (m : M A) (k : A -> M B) : M B :=
  fun p =>
    match m p with
    | Return a p' => k a p'
    | Throw what p' => Throw what p'
    | Undefined u p' => Undefined u p'
    | OutOfFuel => OutOfFuel
    end.

Definition throw {A} (what : string) : M A := fun p => Throw what p.
Definition undefined {A} (u : UB) : M A := fun p => Undefined u p.
Definition out_of_fuel {A} : M A := fun _ => OutOfFuel.

Notation "x <- m ;; k" := (bind m (fun x => k))
  (at level 61, m at next level, right associativity).
Notation "m ;;; k" := (bind m (fun _ => k))
  (at level 61, right associativity).
Notation "'ifM' c 'then' a 'else' b" :=
  (bind c (fun x : bool => if x then a else b))
  (at level 10, c at level 200, a at level 200, b at level 200).

(** [a || b] on calls with effects: [b] runs only when [a] is false. *)
Definition orM (a b : M bool) : M bool := ifM a then ret true else b.

Definition isAtEnd : M bool :=
  fun p => Return (List.length (tokens p) <=? position p)%nat p.

Definition peek : M Token :=
  fun p =>
    match nth_error (tokens p) (position p) with
    | Some t => Return t p
    | None => Undefined (ReadPastEnd (position p)) p
    end.

Definition previous : M Token :=
  fun p =>
    match position p with
    | 0 => Undefined ReadBeforeBegin p
    | S i =>
        match nth_error (tokens p) i with
        | Some t => Return t p
        | None => Undefined (ReadPastEnd i) p
        end
    end.

Definition step_position : M unit :=
  fun p => Return tt (mkState (tokens p) (S (position p)) (bracketStack p)
                        (lineStack p)).

Definition advance : M Token :=
  ifM isAtEnd then previous else (step_position ;;; previous).

(** [match(type, value)]; the default argument of [value] is the empty
    string, which matches every text. *)
Definition match_ (ty : TokenType) (v : string) : M bool :=
  ifM isAtEnd then ret false else
  token <- peek ;;
  if negb (TokenType_eqb (type token) ty) then ret false
  else if negb (String.eqb v EmptyString) && negb (String.eqb (value token) v)
  then ret false
  else advance ;;; ret true.

Definition bracketStack_push (c : ascii) : M unit :=
  fun p => Return tt (mkState (tokens p) (position p) (c :: bracketStack p)
                        (lineStack p)).

Definition lineStack_push (l : Z) : M unit :=
  fun p => Return tt (mkState (tokens p) (position p) (bracketStack p)
                        (l :: lineStack p)).

Definition bracketStack_pop : M unit :=
  fun p =>
    match bracketStack p with
    | [] => Undefined PopEmpty p
    | _ :: rest =>
        Return tt (mkState (tokens p) (position p) rest (lineStack p))
    end.

Definition lineStack_pop : M unit :=
  fun p =>
    match lineStack p with
    | [] => Undefined PopEmpty p
    | _ :: rest =>
        Return tt (mkState (tokens p) (position p) (bracketStack p) rest)
    end.

Definition bracketStack_empty : M bool :=
  fun p => Return (match bracketStack p with [] => true | _ => false end) p.

Definition lineStack_top : M Z :=
  fun p =>
    match lineStack p with
    | [] => Undefined TopEmpty p
    | l :: _ => Return l p
    end.

(** [throw runtime_error(what + to_string(peek().line))] *)
Definition throw_at_line {A} (what : string) : M A :=
  token <- peek ;; throw (what ++ to_string (line token)).

(** [if (!match(type, value)) throw runtime_error(what + ...line)] *)
Definition expect (ty : TokenType) (v : string) (what : string) : M unit :=
  ifM match_ ty v then ret tt else throw_at_line what.

(** [bracketStack.push(c); lineStack.push(previous().line);] *)
Definition open_bracket (c : ascii) : M unit :=
  bracketStack_push c ;;;
  token <- previous ;;
  lineStack_push (line token).

(** [bracketStack.pop(); lineStack.pop();] *)
Definition close_bracket : M unit :=
  bracketStack_pop ;;; lineStack_pop.

(** The [do ... while (match(PUNCTUATION, ","))] loop of
    [parseVariableDeclaration]; [identifiers] is the vector built so far. *)
Fixpoint declarators (fuel : nat) (identifiers : list string)
    : M (list string) :=
  match fuel with
  | 0 => out_of_fuel
  | S fuel' =>
      ifM match_ IDENTIFIER EmptyString then
        (token <- previous ;;
         let identifiers' := (identifiers ++ [value token])%list in
         ifM match_ PUNCTUATION "," then declarators fuel' identifiers'
         else ret identifiers')
      else
        throw_at_line "Expected identifier in variable declaration at line "
  end.

Definition parseVariableDeclaration (fuel : nat) : M (option ASTNode) :=
  token <- previous ;;
  let type := value token in
  identifiers <- declarators fuel [] ;;
  expect PUNCTUATION ";"
    "Expected ';' at the end of variable declaration at line " ;;;
  ret (Some (DeclarationNode type identifiers)).

Definition parseFileDeclaration : M (option ASTNode) :=
  expect IDENTIFIER EmptyString
    "Expected identifier after file declaration keyword at line " ;;;
  token <- previous ;;
  let identifier := IdentifierNode (value token) in
  expect PUNCTUATION "("
    "Expected '(' after file declaration identifier at line " ;;;
  open_bracket "(" ;;;
  expect LITERAL EmptyString
    "Expected filename literal in file declaration at line " ;;;
  expect PUNCTUATION ")"
    "Expected ')' after filename literal in file declaration at line " ;;;
  close_bracket ;;;
  expect PUNCTUATION ";"
    "Expected ';' at the end of file declaration at line " ;;;
  ret (Some identifier).

Definition parseFileOperation : M (option ASTNode) :=
  token <- previous ;;
  let identifier := IdentifierNode (value token) in
  ifM match_ PUNCTUATION "." then
    (expect IDENTIFIER EmptyString
       "Expected method name after '.' in file operation at line " ;;;
     expect PUNCTUATION "("
       "Expected '(' after method name in file operation at line " ;;;
     open_bracket "(" ;;;
     expect PUNCTUATION ")" "Expected ')' in file operation at line " ;;;
     close_bracket ;;;
     expect PUNCTUATION ";"
       "Expected ';' at the end of file operation at line " ;;;
     ret (Some identifier))
  else throw_at_line "Unexpected token after file identifier at line ".

Fixpoint parseExpression (fuel : nat) : M (option ASTNode) :=
  match fuel with
  | 0 => out_of_fuel
  | S fuel' =>
      ifM match_ OPERATOR "!" then
        (token <- previous ;;
         let op := value token in
         right <- parseExpression fuel' ;;
         ret (Some (UnaryOperationNode op right)))
      else advance ;;; ret None
  end.

(** The statement parsers that call back into [parseStatement]. *)
Section Compound.

Variable parseStatement : M unit.
Variable fuel : nat.

(** [while (!match(PUNCTUATION, "}")) parseStatement();] *)
Fixpoint block (n : nat) : M unit :=
  match n with
  | 0 => out_of_fuel
  | S n' =>
      ifM match_ PUNCTUATION "}" then ret tt
      else parseStatement ;;; block n'
  end.

Definition parseIfStatement : M (option ASTNode) :=
  expect PUNCTUATION "(" "Expected '(' after 'if' at line " ;;;
  open_bracket "(" ;;;
  parseExpression fuel ;;;
  expect PUNCTUATION ")"
    "Expected ')' after condition in 'if' statement at line " ;;;
  close_bracket ;;;
  expect PUNCTUATION "{" "Expected '{' after 'if' condition at line " ;;;
  open_bracket "{" ;;;
  block fuel ;;;
  close_bracket ;;;
  ret None.

Definition parseWhileStatement : M (option ASTNode) :=
  expect PUNCTUATION "(" "Expected '(' after 'while' at line " ;;;
  open_bracket "(" ;;;
  parseExpression fuel ;;;
  expect PUNCTUATION ")"
    "Expected ')' after condition in 'while' statement at line " ;;;
  close_bracket ;;;
  expect PUNCTUATION "{" "Expected '{' after 'while' condition at line " ;;;
  open_bracket "{" ;;;
  block fuel ;;;
  close_bracket ;;;
  ret None.

Definition parseForStatement : M (option ASTNode) :=
  expect PUNCTUATION "(" "Expected '(' after 'for' at line " ;;;
  open_bracket "(" ;;;
  parseExpression fuel ;;;
  expect PUNCTUATION ";"
    "Expected ';' after initialization in 'for' statement at line " ;;;
  parseExpression fuel ;;;
  expect PUNCTUATION ";"
    "Expected ';' after condition in 'for' statement at line " ;;;
  parseExpression fuel ;;;
  expect PUNCTUATION ")"
    "Expected ')' after increment in 'for' statement at line " ;;;
  close_bracket ;;;
  expect PUNCTUATION "{" "Expected '{' after 'for' header at line " ;;;
  open_bracket "{" ;;;
  block fuel ;;;
  close_bracket ;;;
  ret None.

End Compound.

(** Which branch of the [if]/[else if] chain of [parseStatement] is taken. *)
Inductive Route : Type :=
| ToVariableDeclaration
| ToFileDeclaration
| ToFileOperation
| ToIfStatement
| ToWhileStatement
| ToForStatement
| ToUnexpectedToken.

(** The conditions of the chain, in order; each successful [match] has
    already consumed the leading token. *)
Definition dispatch : M Route :=
  ifM match_ KEYWORD "int" then ret ToVariableDeclaration else
  ifM orM (match_ KEYWORD "ifstream")
        (orM (match_ KEYWORD "ofstream") (match_ KEYWORD "fstream"))
  then ret ToFileDeclaration else
  ifM match_ IDENTIFIER EmptyString then ret ToFileOperation else
  ifM match_ KEYWORD "if" then ret ToIfStatement else
  ifM match_ KEYWORD "while" then ret ToWhileStatement else
  ifM match_ KEYWORD "for" then ret ToForStatement else
  ret ToUnexpectedToken.

(** [parseStatement] returns [void]: the node a branch builds is dropped. *)
Fixpoint parseStatement (fuel : nat) : M unit :=
  match fuel with
  | 0 => out_of_fuel
  | S fuel' =>
      route <- dispatch ;;
      match route with
      | ToVariableDeclaration => parseVariableDeclaration fuel' ;;; ret tt
      | ToFileDeclaration => parseFileDeclaration ;;; ret tt
      | ToFileOperation => parseFileOperation ;;; ret tt
      | ToIfStatement =>
          parseIfStatement (parseStatement fuel') fuel' ;;; ret tt
      | ToWhileStatement =>
          parseWhileStatement (parseStatement fuel') fuel' ;;; ret tt
      | ToForStatement =>
          parseForStatement (parseStatement fuel') fuel' ;;; ret tt
      | ToUnexpectedToken =>
          token <- peek ;;
          token' <- peek ;;
          throw ("Unexpected token: " ++ value token ++ " at line "
                 ++ to_string (line token'))
      end
  end.

(** [while (!isAtEnd()) parseStatement();] *)
Fixpoint statements (fuel n : nat) : M unit :=
  match n with
  | 0 => out_of_fuel
  | S n' =>
      ifM isAtEnd then ret tt
      else parseStatement fuel ;;; statements fuel n'
  end.

Definition parseProgram (fuel : nat) : M (option ASTNode) :=
  statements fuel fuel ;;;
  ifM bracketStack_empty then ret None
  else
    errorLine <- lineStack_top ;;
    throw ("Mismatched brackets detected at line " ++ to_string errorLine).

(** Every statement consumes a token, and every nested call sits behind a
    consumed token, so the length of the token vector plus one is fuel
    enough ([sat_parse]). *)
Definition parse_with (fuel : nat) (toks : list Token)
    : Outcome (option ASTNode) :=
  parseProgram fuel (init toks).

(** [Parser(tokens).parse()] *)
Definition parse (toks : list Token) : Outcome (option ASTNode) :=
  parse_with (S (List.length toks)) toks.

(** Tokenize, then parse: what [main] does with its source text. *)
Definition parse_source (source : string)
    : option (Outcome (option ASTNode)) :=
  option_map parse (Lexer.tokenize source).

End Parser.

(** * The driver *)
Module Driver.

Import Parser.
Local Open Scope list_scope.

(** [cout << token.type]: an unscoped enumeration prints as its number. *)
Definition type_code (ty : TokenType) : Z :=
  match ty with
  | KEYWORD => 0
  | IDENTIFIER => 1
  | LITERAL => 2
  | OPERATOR => 3
  | PUNCTUATION => 4
  | UNKNOWN => 5
  end.

(** The line [printTokens] writes for one token. *)
Definition token_line (token : Token) : string :=
  "Token: " ++ value token ++ " Type: " ++ to_string (type_code (type token))
  ++ " Line: " ++ to_string (line token).

(** [printTokens]: the lines written to [cout]. *)
Definition printTokens (tokens : list Token) : list string :=
  "Lexer's Output:  " :: map token_line tokens.

(** The lines written to the two streams. *)
Record Streams : Type := mkStreams {
  cout : list string;
  cerr : list string
}.

(** How [main] ends: it returns, or it runs into an undefined operation
    after what it has written, or the model runs out of fuel. *)
Inductive Exit : Type :=
| Finished (written : Streams)
| Crashed (written : Streams) (u : UB)
| Starved.

(** The heading and the empty line after it. *)
Definition heading : list string :=
  [String TAB (String TAB (String TAB "Compiler Construction Project"));
   EmptyString].

(** [main], with the text of its variable [code] as the argument: the
    heading, then the [try] block (tokenize, print the tokens, parse, report
    on the tree) and its [catch], which writes the message of the exception
    to [cerr]. *)
Definition main (code : string) : option Exit :=
  match Lexer.tokenize code with
  | None => None
  | Some tokens =>
      let printed := heading ++ printTokens tokens in
      Some
        match parse tokens with
        | Return (Some _) _ =>
            Finished
              (mkStreams (printed ++ ["Parsing completed successfully."]) [])
        | Return None _ =>
            Finished (mkStreams (printed ++ ["Parsing failed."]) [])
        | Throw what _ => Finished (mkStreams printed [what])
        | Undefined u _ => Crashed (mkStreams printed []) u
        | OutOfFuel => Starved
        end
  end.

End Driver.

(** * Vocabulary of the statements *)

(** ** Texts and matches *)
Module LexerSpec.

Local Open Scope list_scope.

(** No character of [l] is a line feed. *)
Definition no_lf (l : list ascii) : bool :=
  forallb (fun c => negb (Ascii.eqb c LF)) l.

Definition newlines (l : list ascii) : nat := count_occ ascii_dec l LF.

(** What every match has: at least one character, inside the text. *)
Definition fits (s : list ascii) (len : nat) : Prop :=
  1 <= len <= List.length s.

(** A match that contains no line feed. *)
Definition plain (s : list ascii) (len : nat) : Prop :=
  fits s len /\ no_lf (firstn len s) = true.

Definition word_ok (w : string) : bool :=
  negb (String.length w =? 0)%nat && no_lf (list_ascii_of_string w).

(** Where a token sits in the text [whole] and what line it reports,
    counting from [base]. *)
Definition placed (base : Z) (whole : list ascii) (pt : nat * Token) : Prop :=
  let (pos, t) := pt in
  line t = (base + Z.of_nat (newlines (firstn pos whole)))%Z
  /\ firstn (String.length (value t)) (skipn pos whole)
     = list_ascii_of_string (value t)
  /\ pos < List.length whole.

(** A keyword token carries one of the keyword alternatives, an operator
    token one of the operator alternatives, and a punctuation token one
    character of the punctuation class. *)
Definition listed (t : Token) : Prop :=
  (type t = KEYWORD -> In (value t) Regex.keywords)
  /\ (type t = OPERATOR -> In (value t) Regex.operators)
  /\ (type t = PUNCTUATION ->
      exists c, punctuation_char c = true /\ value t = String c EmptyString).

End LexerSpec.

(** ** Parser states and outcomes *)
Module ParserSpec.

Import Parser.
Local Open Scope list_scope.

(** The token under the cursor, if any. *)
Definition next (p : State) : option Token :=
  nth_error (tokens p) (position p).

(** The state after [position++]. *)
Definition stepped (p : State) : State :=
  mkState (tokens p) (S (position p)) (bracketStack p) (lineStack p).

(** The test [match(type, value)] makes on the token under the cursor. *)
Definition accepts (ty : TokenType) (v : string) (t : Token) : bool :=
  TokenType_eqb (type t) ty
  && (String.eqb v EmptyString || String.eqb (value t) v).

(** The token is the operator [!], as [match(OPERATOR, "!")] tests it. *)
Definition is_not (t : Token) : bool := accepts OPERATOR "!" t.

(** How many tokens from the cursor on are the operator [!]. *)
Fixpoint count_leading (f : Token -> bool) (l : list Token) : nat :=
  match l with
  | t :: l' => if f t then S (count_leading f l') else 0
  | [] => 0
  end.

Definition leading_nots (p : State) : nat :=
  count_leading is_not (skipn (position p) (tokens p)).

(** [k] nested [UnaryOperationNode]s with operator [!] around [nullptr]. *)
Fixpoint nots (k : nat) : option ASTNode :=
  match k with
  | 0 => None
  | S k' => Some (UnaryOperationNode "!" (nots k'))
  end.

(** The state after [n] tokens have been consumed. *)
Definition moved (n : nat) (p : State) : State :=
  mkState (tokens p) (position p + n) (bracketStack p) (lineStack p).

Section Tracker.

Variable toks : list Token.

(** The parser is working on [toks] with the stacks [bs] and [ls] and the
    cursor between [lo] and the end. *)
Definition good (bs : list ascii) (ls : list Z) (lo : nat) (p : State)
    : Prop :=
  tokens p = toks /\ bracketStack p = bs /\ lineStack p = ls
  /\ lo <= position p /\ position p <= List.length toks.

(** The two stacks have the same height. *)
Definition paired (p : State) : Prop :=
  tokens p = toks
  /\ List.length (bracketStack p) = List.length (lineStack p).

(** Tokens left from the cursor on. *)
Definition remaining (p : State) : nat := List.length toks - position p.

(** [m] run from [p] does not run out of fuel; a normal return satisfies
    [Q]; an exception leaves the stacks paired; and the only undefined
    operation is the read of [tokens[tokens.size()]]. *)
Definition sat {A} (m : M A) (p : State) (Q : A -> State -> Prop) : Prop :=
  match m p with
  | Return a p' => Q a p'
  | Throw _ p' => paired p'
  | Undefined u p' => paired p' /\ u = ReadPastEnd (List.length toks)
  | OutOfFuel => False
  end.

End Tracker.

End ParserSpec.

(** ** Tokens against the text they come from *)
Module TokenSpec.

Import Regex Lexer.
Local Open Scope list_scope.

(** The capture group whose match the loop turns into a token of type
    [ty]. *)
Definition type_group (ty : TokenType) : nat :=
  match ty with
  | KEYWORD => 1
  | IDENTIFIER => 2
  | LITERAL => 3
  | OPERATOR => 4
  | PUNCTUATION => 5
  | UNKNOWN => 8
  end.




(** The offset just after the token [pt], which starts at [fst pt]. *)
Definition token_end (pt : nat * Token) : nat :=
  fst pt + String.length (value (snd pt)).

(** The character at offset [i] belongs to the token [pt]. *)
Definition covers (i : nat) (pt : nat * Token) : bool :=
  Nat.leb (fst pt) i && Nat.ltb i (token_end pt).

(** The characters the tokenizer drops: blanks, line feeds and carriage
    returns. *)
Definition dropped_char (c : ascii) : bool :=
  blank_char c || line_terminator c.

(** The group [g] depends only on the text it matches: if it matches all
    of [l] when more text follows, it matches all of [l] alone, and if it
    fails with more text, it fails on [l] alone. *)
Definition stable (g : list ascii -> option nat) : Prop :=
  forall l r,
    (g (l ++ r) = Some (List.length l) -> g l = Some (List.length l))
    /\ (g (l ++ r) = None -> g l = None).

(** The loop over the matches of a text, as a relation: the text is a run
    of carriage returns the search steps over, then a match, then the rest;
    [pos] is the offset of the text in the source. *)
Inductive scans
    : nat -> list ascii -> Lexer.State -> list (nat * Token) -> Prop :=
| scans_end pos k st : scans pos (repeat CR k) st []
| scans_match pos s k g lexeme rest st pts :
    s = repeat CR k ++ lexeme ++ rest ->
    match_here (lexeme ++ rest) = Some (g, List.length lexeme) ->
    scans (pos + k + List.length lexeme) rest
      (snd (body (mkMatch g (pos + k) (string_of_list_ascii lexeme)) st))
      pts ->
    scans pos s st
      (match fst (body (mkMatch g (pos + k) (string_of_list_ascii lexeme))
                    st)
       with
       | Some t => (pos + k, t) :: pts
       | None => pts
       end).

End TokenSpec.

(** ** Exceptions *)
Module ErrorSpec.

Import Parser ParserSpec.

(** The message ends with the words [at line] and the number [n]. *)
Definition cites (what : string) (n : Z) : Prop :=
  exists before, what = before ++ "at line " ++ to_string n.

(** The message says what was expected or what was unexpected. *)
Definition names_expectation (what : string) : Prop :=
  String.prefix "Expected" what = true
  \/ String.prefix "Unexpected" what = true.

(** An exception of a statement parser: it names an expectation and cites
    the line of the token under the cursor. *)
Definition stopped_at (what : string) (p : State) : Prop :=
  names_expectation what
  /\ exists t, next p = Some t /\ cites what (line t).

(** Every exception [m] can throw satisfies [P]. *)
Definition throws_only {A} (P : string -> State -> Prop) (m : M A) : Prop :=
  forall p what p', m p = Throw what p' -> P what p'.

End ErrorSpec.

(** ** The token sequences the parser accepts *)
Module GrammarSpec.

Import Parser ParserSpec.
Local Open Scope list_scope.

(** The tokens from the cursor on. *)
Definition rest (p : State) : list Token :=
  skipn (position p) (tokens p).

(** One of the three keywords that open a file declaration. *)
Definition file_keyword (t : Token) : bool :=
  accepts KEYWORD "ifstream" t || accepts KEYWORD "ofstream" t
  || accepts KEYWORD "fstream" t.

(** What [parseExpression] consumes when a token follows: any number of
    operators [!], then one token of any kind that is not the operator
    [!]. *)
Inductive Expression : list Token -> Prop :=
| Expr_token t : is_not t = false -> Expression [t]
| Expr_not t e : is_not t = true -> Expression e -> Expression (t :: e).

(** Identifiers separated by commas. *)
Inductive Declarators : list Token -> Prop :=
| Decl_last name :
    accepts IDENTIFIER EmptyString name = true -> Declarators [name]
| Decl_more name comma ds :
    accepts IDENTIFIER EmptyString name = true ->
    accepts PUNCTUATION "," comma = true ->
    Declarators ds ->
    Declarators (name :: comma :: ds).

(** The statements, by the tokens [match] asks for in each statement
    parser, and the sequences of statements. *)
Inductive Statement : list Token -> Prop :=
| St_variable kw ds semi :
    accepts KEYWORD "int" kw = true ->
    Declarators ds ->
    accepts PUNCTUATION ";" semi = true ->
    Statement (kw :: ds ++ [semi])
| St_file kw name lp lit rp semi :
    file_keyword kw = true ->
    accepts IDENTIFIER EmptyString name = true ->
    accepts PUNCTUATION "(" lp = true ->
    accepts LITERAL EmptyString lit = true ->
    accepts PUNCTUATION ")" rp = true ->
    accepts PUNCTUATION ";" semi = true ->
    Statement [kw; name; lp; lit; rp; semi]
| St_call name dot method lp rp semi :
    accepts IDENTIFIER EmptyString name = true ->
    accepts PUNCTUATION "." dot = true ->
    accepts IDENTIFIER EmptyString method = true ->
    accepts PUNCTUATION "(" lp = true ->
    accepts PUNCTUATION ")" rp = true ->
    accepts PUNCTUATION ";" semi = true ->
    Statement [name; dot; method; lp; rp; semi]
| St_if kw lp e rp lb body rb :
    accepts KEYWORD "if" kw = true ->
    accepts PUNCTUATION "(" lp = true ->
    Expression e ->
    accepts PUNCTUATION ")" rp = true ->
    accepts PUNCTUATION "{" lb = true ->
    Statements body ->
    accepts PUNCTUATION "}" rb = true ->
    Statement (kw :: lp :: e ++ rp :: lb :: body ++ [rb])
| St_while kw lp e rp lb body rb :
    accepts KEYWORD "while" kw = true ->
    accepts PUNCTUATION "(" lp = true ->
    Expression e ->
    accepts PUNCTUATION ")" rp = true ->
    accepts PUNCTUATION "{" lb = true ->
    Statements body ->
    accepts PUNCTUATION "}" rb = true ->
    Statement (kw :: lp :: e ++ rp :: lb :: body ++ [rb])
| St_for kw lp e1 semi1 e2 semi2 e3 rp lb body rb :
    accepts KEYWORD "for" kw = true ->
    accepts PUNCTUATION "(" lp = true ->
    Expression e1 ->
    accepts PUNCTUATION ";" semi1 = true ->
    Expression e2 ->
    accepts PUNCTUATION ";" semi2 = true ->
    Expression e3 ->
    accepts PUNCTUATION ")" rp = true ->
    accepts PUNCTUATION "{" lb = true ->
    Statements body ->
    accepts PUNCTUATION "}" rb = true ->
    Statement
      (kw :: lp :: e1 ++ semi1 :: e2 ++ semi2 :: e3 ++ rp :: lb :: body
          ++ [rb])
with Statements : list Token -> Prop :=
| Sts_nil : Statements []
| Sts_cons s ss : Statement s -> Statements ss -> Statements (s ++ ss).

(** From [p] to [p']: the tokens [s] consumed, the stacks now [bs] and
    [ls]. *)
Definition reaches (s : list Token) (bs : list ascii) (ls : list Z)
    (p p' : State) : Prop :=
  tokens p' = tokens p
  /\ position p' = position p + List.length s
  /\ rest p = s ++ rest p'
  /\ bracketStack p' = bs
  /\ lineStack p' = ls.

(** From [p] to [p']: the tokens [s] consumed, the stacks as they were. *)
Definition after (s : list Token) (p p' : State) : Prop :=
  reaches s (bracketStack p) (lineStack p) p p'.

(** If [m] returns from [p], the result satisfies [Q]. *)
Definition ensures {A} (m : M A) (p : State) (Q : A -> State -> Prop)
    : Prop :=
  forall a p', m p = Return a p' -> Q a p'.

(** [m] returns from [p], with a result that satisfies [Q]. *)
Definition returns {A} (m : M A) (p : State) (Q : A -> State -> Prop)
    : Prop :=
  exists a p', m p = Return a p' /\ Q a p'.

(** The tokens of an [if] or a [while] statement after the keyword. *)
Definition guarded (s : list Token) : Prop :=
  exists lp e rp lb body rb,
    accepts PUNCTUATION "(" lp = true
    /\ Expression e
    /\ accepts PUNCTUATION ")" rp = true
    /\ accepts PUNCTUATION "{" lb = true
    /\ Statements body
    /\ accepts PUNCTUATION "}" rb = true
    /\ s = lp :: e ++ rp :: lb :: body ++ [rb].

(** The tokens of a [for] statement after the keyword. *)
Definition counted (s : list Token) : Prop :=
  exists lp e1 semi1 e2 semi2 e3 rp lb body rb,
    accepts PUNCTUATION "(" lp = true
    /\ Expression e1
    /\ accepts PUNCTUATION ";" semi1 = true
    /\ Expression e2
    /\ accepts PUNCTUATION ";" semi2 = true
    /\ Expression e3
    /\ accepts PUNCTUATION ")" rp = true
    /\ accepts PUNCTUATION "{" lb = true
    /\ Statements body
    /\ accepts PUNCTUATION "}" rb = true
    /\ s = lp :: e1 ++ semi1 :: e2 ++ semi2 :: e3 ++ rp :: lb :: body
              ++ [rb].

(** The cursor is behind a token of the vector. *)
Definition inside (p : State) : Prop :=
  1 <= position p <= List.length (tokens p).

(** The token a route of the dispatcher has consumed. *)
Definition route_token (route : Route) (t : Token) : bool :=
  match route with
  | ToVariableDeclaration => accepts KEYWORD "int" t
  | ToFileDeclaration => file_keyword t
  | ToFileOperation => accepts IDENTIFIER EmptyString t
  | ToIfStatement => accepts KEYWORD "if" t
  | ToWhileStatement => accepts KEYWORD "while" t
  | ToForStatement => accepts KEYWORD "for" t
  | ToUnexpectedToken => false
  end.

End GrammarSpec.

(** * Properties of the token pattern *)
Module RegexFacts.

Import Regex LexerSpec.
Local Open Scope list_scope.

Lemma newlines_app l1 l2 : newlines (l1 ++ l2) = newlines l1 + newlines l2.
Proof. apply count_occ_app. Qed.

Lemma no_lf_newlines l : no_lf l = true -> newlines l = 0.
Proof.
  unfold newlines. induction l as [|c l IH]; simpl; [reflexivity|].
  intros H. apply andb_prop in H as [Hc Hl].
  destruct (ascii_dec c LF) as [->|_]; [discriminate Hc|auto].
Qed.

Lemma no_lf_app l1 l2 : no_lf (l1 ++ l2) = no_lf l1 && no_lf l2.
Proof. apply forallb_app. Qed.

Lemma length_list_ascii_of_string w :
  List.length (list_ascii_of_string w) = String.length w.
Proof. induction w; simpl; congruence. Qed.

Lemma starts_with_firstn pre s :
  starts_with pre s = true -> firstn (List.length pre) s = pre.
Proof.
  revert s. induction pre as [|p pre IH]; intros [|c s] H; simpl in *;
    try reflexivity; try discriminate.
  apply andb_prop in H as [Hc Hs]. apply Ascii.eqb_eq in Hc. subst.
  f_equal. auto.
Qed.

Lemma starts_with_length pre s :
  starts_with pre s = true -> List.length pre <= List.length s.
Proof.
  revert s. induction pre as [|p pre IH]; intros [|c s] H; simpl in *;
    try lia; try discriminate.
  apply andb_prop in H as [_ Hs]. apply IH in Hs. lia.
Qed.

(** A successful [first_word] names the word it found. *)
Lemma first_word_some words s n :
  first_word words s = Some n ->
  exists w, In w words /\ n = String.length w
            /\ firstn n s = list_ascii_of_string w
            /\ n <= List.length s.
Proof.
  induction words as [|w words IH]; simpl; [discriminate|].
  destruct (starts_with (list_ascii_of_string w) s) eqn:E.
  - intros [= <-]. exists w. rewrite <- length_list_ascii_of_string.
    auto using starts_with_firstn, starts_with_length.
  - intros H. destruct (IH H) as (w' & ? & ?). exists w'. auto.
Qed.

Lemma first_word_plain words s n :
  forallb word_ok words = true -> first_word words s = Some n -> plain s n.
Proof.
  intros Hall H. apply first_word_some in H as (w & Hin & -> & Hpre & Hlen).
  rewrite forallb_forall in Hall. specialize (Hall w Hin).
  apply andb_prop in Hall as [Hne Hlf]. apply negb_true_iff in Hne.
  apply Nat.eqb_neq in Hne. unfold plain, fits. rewrite Hpre. split; [lia|auto].
Qed.

Lemma span_length p s : span p s <= List.length s.
Proof. induction s as [|c s IH]; simpl; [lia|]. destruct (p c); simpl; lia. Qed.

Lemma span_forallb p s : forallb p (firstn (span p s) s) = true.
Proof.
  induction s as [|c s IH]; simpl; [reflexivity|].
  destruct (p c) eqn:E; simpl; [rewrite E; auto|reflexivity].
Qed.

Lemma forallb_no_lf (p : ascii -> bool) l :
  (forall c, p c = true -> Ascii.eqb c LF = false) ->
  forallb p l = true -> no_lf l = true.
Proof.
  intros Hp. unfold no_lf. induction l as [|c l IH]; simpl; [reflexivity|].
  intros H. apply andb_prop in H as [Hc Hl]. rewrite (Hp c Hc). simpl. auto.
Qed.

(** Facts about one character are settled by going through all 256. *)
Ltac by_cases_on c :=
  destruct c as [[] [] [] [] [] [] [] []]; vm_compute; intros;
  first [reflexivity | discriminate | congruence].

Lemma ident_start_not_lf c : ident_start c = true -> Ascii.eqb c LF = false.
Proof. by_cases_on c. Qed.

Lemma ident_part_not_lf c : ident_part c = true -> Ascii.eqb c LF = false.
Proof. by_cases_on c. Qed.

Lemma punctuation_not_lf c :
  punctuation_char c = true -> Ascii.eqb c LF = false.
Proof. by_cases_on c. Qed.

Lemma blank_not_lf c : blank_char c = true -> Ascii.eqb c LF = false.
Proof. by_cases_on c. Qed.

Lemma any_char_not_lf c : any_char c = true -> Ascii.eqb c LF = false.
Proof. by_cases_on c. Qed.

Lemma dquote_not_lf c : Ascii.eqb c DQUOTE = true -> Ascii.eqb c LF = false.
Proof. by_cases_on c. Qed.

(** The only character [.] and the line-feed group both refuse. *)
Lemma neither_any_nor_lf c :
  any_char c = false -> Ascii.eqb c LF = false -> c = CR.
Proof. by_cases_on c. Qed.

Lemma group1_plain s n : group1 s = Some n -> plain s n.
Proof. apply first_word_plain. reflexivity. Qed.

Lemma group4_plain s n : group4 s = Some n -> plain s n.
Proof. apply first_word_plain. reflexivity. Qed.

Lemma group2_plain s n : group2 s = Some n -> plain s n.
Proof.
  destruct s as [|c s]; simpl; [discriminate|].
  destruct (ident_start c) eqn:E; [|discriminate]. intros [= <-].
  pose proof (span_length ident_part s). split; [split; simpl; lia|].
  simpl. rewrite (ident_start_not_lf _ E). simpl.
  apply (forallb_no_lf ident_part); [apply ident_part_not_lf|].
  apply span_forallb.
Qed.

Lemma lazy_to_quote_plain s n : lazy_to_quote s = Some n -> plain s n.
Proof.
  revert n. induction s as [|c s IH]; simpl; intros n; [discriminate|].
  destruct (Ascii.eqb c DQUOTE) eqn:Eq.
  - intros [= <-]. split; [split; simpl; lia|].
    simpl. rewrite (dquote_not_lf _ Eq). reflexivity.
  - destruct (any_char c) eqn:Ea; [|discriminate].
    destruct (lazy_to_quote s) as [k|]; [|discriminate].
    intros [= <-]. destruct (IH k eq_refl) as [[? ?] Hlf].
    split; [split; simpl; lia|].
    simpl. rewrite (any_char_not_lf _ Ea). simpl. exact Hlf.
Qed.

Lemma group3_plain s n : group3 s = Some n -> plain s n.
Proof.
  destruct s as [|c s]; simpl; [discriminate|].
  destruct (Ascii.eqb c DQUOTE) eqn:Eq; [|discriminate].
  destruct (lazy_to_quote s) as [k|] eqn:E; [|discriminate].
  intros [= <-]. destruct (lazy_to_quote_plain _ _ E) as [[? ?] Hlf].
  split; [split; simpl; lia|].
  simpl. rewrite (dquote_not_lf _ Eq). simpl. exact Hlf.
Qed.

Lemma one_char_plain (p : ascii -> bool) s n :
  (forall c, p c = true -> Ascii.eqb c LF = false) ->
  one_char p s = Some n -> plain s n.
Proof.
  intros Hp. destruct s as [|c s]; simpl; [discriminate|].
  destruct (p c) eqn:E; [|discriminate]. intros [= <-].
  split; [split; simpl; lia|]. simpl. rewrite (Hp c E). reflexivity.
Qed.

Lemma group5_plain s n : group5 s = Some n -> plain s n.
Proof. apply one_char_plain, punctuation_not_lf. Qed.

Lemma group8_plain s n : group8 s = Some n -> plain s n.
Proof. apply one_char_plain, any_char_not_lf. Qed.

Lemma group6_plain s n : group6 s = Some n -> plain s n.
Proof.
  unfold group6. pose proof (span_length blank_char s) as Hlen.
  pose proof (span_forallb blank_char s) as Hall.
  destruct (span blank_char s) as [|k] eqn:E; [discriminate|].
  intros [= <-]. split; [split; lia|].
  apply (forallb_no_lf blank_char); [apply blank_not_lf|exact Hall].
Qed.

(** The line-feed group matches exactly one line feed. *)
Lemma group7_some s n :
  group7 s = Some n -> n = 1 /\ firstn 1 s = [LF] /\ fits s 1.
Proof.
  destruct s as [|c s]; simpl; [discriminate|].
  destruct (Ascii.eqb c LF) eqn:E; [|discriminate]. intros [= <-].
  apply Ascii.eqb_eq in E. subst. repeat split; simpl; lia.
Qed.

(** A match is a line feed (group 7) or contains none. *)
Lemma match_here_some s g len :
  match_here s = Some (g, len) ->
  1 <= g <= 8 /\ fits s len /\
  (if (g =? 7)%nat then firstn len s = [LF]
   else no_lf (firstn len s) = true).
Proof.
  unfold match_here, groups, first_group.
  destruct (group1 s) eqn:E1;
    [intros [= <- <-]; destruct (group1_plain _ _ E1); simpl;
     (split; [lia|split; assumption])|].
  destruct (group2 s) eqn:E2;
    [intros [= <- <-]; destruct (group2_plain _ _ E2); simpl;
     (split; [lia|split; assumption])|].
  destruct (group3 s) eqn:E3;
    [intros [= <- <-]; destruct (group3_plain _ _ E3); simpl;
     (split; [lia|split; assumption])|].
  destruct (group4 s) eqn:E4;
    [intros [= <- <-]; destruct (group4_plain _ _ E4); simpl;
     (split; [lia|split; assumption])|].
  destruct (group5 s) eqn:E5;
    [intros [= <- <-]; destruct (group5_plain _ _ E5); simpl;
     (split; [lia|split; assumption])|].
  destruct (group6 s) eqn:E6;
    [intros [= <- <-]; destruct (group6_plain _ _ E6); simpl;
     (split; [lia|split; assumption])|].
  destruct (group7 s) eqn:E7;
    [intros [= <- <-]; destruct (group7_some _ _ E7) as (-> & ? & ?);
     simpl; (split; [lia|split; assumption])|].
  destruct (group8 s) eqn:E8;
    [intros [= <- <-]; destruct (group8_plain _ _ E8); simpl;
     (split; [lia|split; assumption])|].
  discriminate.
Qed.

Lemma group5_some s n :
  group5 s = Some n ->
  exists c, punctuation_char c = true /\ firstn n s = [c].
Proof.
  destruct s as [|c s]; simpl; [discriminate|].
  destruct (punctuation_char c) eqn:E; [|discriminate].
  intros [= <-]. eauto.
Qed.

(** Groups 1 and 4 match one of their words, group 5 one character of its
    class. *)
Lemma match_here_word s g len :
  match_here s = Some (g, len) ->
  (g = 1 -> exists w, In w keywords /\ firstn len s = list_ascii_of_string w)
  /\ (g = 4 ->
      exists w, In w operators /\ firstn len s = list_ascii_of_string w)
  /\ (g = 5 -> exists c, punctuation_char c = true /\ firstn len s = [c]).
Proof.
  unfold match_here, groups, first_group.
  destruct (group1 s) eqn:E1.
  { intros [= <- <-]. repeat split; try discriminate. intros _.
    apply first_word_some in E1 as (w & ? & ? & ? & _). eauto. }
  destruct (group2 s); [intros [= <- <-]; repeat split; discriminate|].
  destruct (group3 s); [intros [= <- <-]; repeat split; discriminate|].
  destruct (group4 s) eqn:E4.
  { intros [= <- <-]. repeat split; try discriminate. intros _.
    apply first_word_some in E4 as (w & ? & ? & ? & _). eauto. }
  destruct (group5 s) eqn:E5.
  { intros [= <- <-]. repeat split; try discriminate. intros _.
    apply group5_some in E5. exact E5. }
  destruct (group6 s); [intros [= <- <-]; repeat split; discriminate|].
  destruct (group7 s); [intros [= <- <-]; repeat split; discriminate|].
  destruct (group8 s); [intros [= <- <-]; repeat split; discriminate|].
  discriminate.
Qed.

(** The pattern fails at a position only on a carriage return (or at the
    end of the text). *)
Lemma match_here_none c s : match_here (c :: s) = None -> c = CR.
Proof.
  unfold match_here, groups, first_group.
  destruct (group1 (c :: s)); [discriminate|].
  destruct (group2 (c :: s)); [discriminate|].
  destruct (group3 (c :: s)); [discriminate|].
  destruct (group4 (c :: s)); [discriminate|].
  destruct (group5 (c :: s)); [discriminate|].
  destruct (group6 (c :: s)); [discriminate|].
  unfold group7, group8, one_char.
  destruct (Ascii.eqb c LF) eqn:E7; [discriminate|].
  destruct (any_char c) eqn:E8; [discriminate|].
  intros _. apply neither_any_nor_lf; assumption.
Qed.

Lemma match_here_cr s : match_here (CR :: s) = None.
Proof.
  unfold match_here, groups, first_group.
  replace (group1 (CR :: s)) with (@None nat) by reflexivity.
  replace (group2 (CR :: s)) with (@None nat) by reflexivity.
  replace (group3 (CR :: s)) with (@None nat) by reflexivity.
  replace (group4 (CR :: s)) with (@None nat) by reflexivity.
  reflexivity.
Qed.

Lemma firstn_add {A} (k len : nat) (l : list A) :
  firstn (k + len) l = firstn k l ++ firstn len (skipn k l).
Proof.
  revert l. induction k as [|k IH]; intros [|a l]; simpl;
    try reflexivity.
  - now rewrite firstn_nil.
  - now rewrite IH.
Qed.

(** A search steps over carriage returns only and then finds a match. *)
Lemma regex_search_some s k g len :
  regex_search s = Some (k, g, len) ->
  match_here (skipn k s) = Some (g, len)
  /\ firstn k s = repeat CR k
  /\ k + len <= List.length s.
Proof.
  revert k. induction s as [|c s IH]; intros k; simpl.
  - discriminate.
  - destruct (match_here (c :: s)) as [[g' len']|] eqn:E.
    + intros [= <- <- <-]. simpl. split; [exact E|split; [reflexivity|]].
      apply match_here_some in E as (_ & [? ?] & _). simpl in *. lia.
    + destruct (regex_search s) as [[[k' g'] len']|]; [|discriminate].
      intros [= <- <- <-]. destruct (IH k' eq_refl) as (Hm & Hcr & Hlen).
      apply match_here_none in E. subst c. simpl.
      rewrite Hcr. repeat split; auto. lia.
Qed.

(** A search fails only on a text of carriage returns. *)
Lemma regex_search_none s :
  regex_search s = None -> s = repeat CR (List.length s).
Proof.
  induction s as [|c s IH]; simpl; [reflexivity|].
  destruct (match_here (c :: s)) as [[g len]|] eqn:E; [discriminate|].
  destruct (regex_search s) as [[[k g] len]|]; [discriminate|].
  intros _. apply match_here_none in E. subst c. f_equal. auto.
Qed.

Lemma no_lf_repeat_cr k : no_lf (repeat CR k) = true.
Proof. induction k; simpl; auto. Qed.

(** Fuel above the length of the text is enough for the iterator. *)
Lemma matches_fuel fuel pos s :
  List.length s < fuel -> exists ms, matches_from fuel pos s = Some ms.
Proof.
  revert pos s. induction fuel as [|fuel IH]; intros pos s Hlt; [lia|].
  simpl. destruct (regex_search s) as [[[k g] len]|] eqn:E; [|eauto].
  apply regex_search_some in E as (Hm & _ & Hlen).
  apply match_here_some in Hm as (_ & [Hpos _] & _).
  destruct (IH (pos + k + len) (skipn (k + len) s)) as [ms ->];
    [rewrite length_skipn; lia|].
  simpl. eauto.
Qed.

Lemma sregex_iterator_total source :
  exists ms, sregex_iterator source = Some ms.
Proof. apply matches_fuel. lia. Qed.

End RegexFacts.

(** * Properties of the lexer *)
Module LexerFacts.

Import Regex LexerSpec RegexFacts Lexer.
Local Open Scope list_scope.

(** The tokenizer returns a token sequence for every source. *)
Lemma tokenize_at_total source :
  exists toks, tokenize_at source = Some toks.
Proof.
  unfold tokenize_at. destruct (sregex_iterator_total source) as [ms ->].
  simpl. eauto.
Qed.

Lemma tokenize_total source : exists toks, tokenize source = Some toks.
Proof.
  unfold tokenize. destruct (tokenize_at_total source) as [toks ->].
  simpl. eauto.
Qed.

(** What one turn of the loop does to the line counter and which token it
    pushes. *)
Lemma body_spec m st :
  1 <= group m <= 8 ->
  let (emitted, st') := body m st in
  cur_line st' = (if (group m =? 7)%nat then cur_line st + 1 else cur_line st)%Z
  /\ match emitted with
     | Some t => line t = cur_line st /\ value t = str m
     | None => True
     end.
Proof.
  intros Hg. unfold body.
  destruct (group m) as [|[|[|[|[|[|[|[|[|]]]]]]]]]; try lia; simpl; auto.
  destruct (_ || _); simpl; auto.
Qed.

Lemma scan_placed base fuel : forall pre s ms st,
  matches_from fuel (List.length pre) s = Some ms ->
  cur_line st = (base + Z.of_nat (newlines pre))%Z ->
  Forall (placed base (pre ++ s)) (scan ms st).
Proof.
  induction fuel as [|fuel IH]; intros pre s ms st; simpl; [discriminate|].
  destruct (regex_search s) as [[[k g] len]|] eqn:E;
    [|intros [= <-] _; constructor].
  apply regex_search_some in E as (Hm & Hcr & Hlen).
  apply match_here_some in Hm as (Hg & [Hpos Hin] & Hlf).
  rewrite length_skipn in Hin.
  destruct (matches_from fuel _ _) as [ms'|] eqn:Erest; [|discriminate].
  simpl. intros [= <-] Hline.
  set (m := mkMatch g (List.length pre + k)
              (string_of_list_ascii (firstn len (skipn k s)))).
  assert (Hnl : newlines (firstn k s) = 0)
    by (rewrite Hcr; apply no_lf_newlines, no_lf_repeat_cr).
  assert (Hrest : Forall (placed base (pre ++ s))
                    (scan ms' (snd (body m st)))).
  { replace (pre ++ s)
      with ((pre ++ firstn (k + len) s) ++ skipn (k + len) s)
      by (rewrite <- app_assoc, firstn_skipn; reflexivity).
    apply IH.
    - rewrite length_app, length_firstn, Nat.min_l by lia.
      rewrite Nat.add_assoc. exact Erest.
    - pose proof (body_spec m st Hg) as Hb.
      destruct (body m st) as [e st'] eqn:Eb. simpl.
      destruct Hb as [-> _]. unfold m at 1. simpl group.
      rewrite newlines_app, firstn_add, newlines_app, Hnl, Hline.
      destruct (g =? 7)%nat.
      + rewrite Hlf. unfold newlines at 3. simpl. lia.
      + rewrite (no_lf_newlines _ Hlf). lia. }
  simpl scan. pose proof (body_spec m st Hg) as Hb.
  destruct (body m st) as [[t|] st'] eqn:Eb; simpl in Hrest; [|exact Hrest].
  constructor; [|exact Hrest].
  destruct Hb as [_ [Ht Hv]]. simpl position. unfold placed.
  rewrite firstn_app, length_app. split; [|split].
  - rewrite Ht, Hline, newlines_app.
    replace (List.length pre + k - List.length pre) with k by lia.
    rewrite firstn_all2 by lia. rewrite Hnl. lia.
  - rewrite Hv. unfold m. simpl str.
    rewrite skipn_app, (skipn_all2 pre) by lia.
    replace (List.length pre + k - List.length pre) with k by lia.
    simpl app. rewrite <- length_list_ascii_of_string.
    rewrite list_ascii_of_string_of_list_ascii.
    rewrite length_firstn, length_skipn, Nat.min_l by lia.
    reflexivity.
  - lia.
Qed.

(** Line numbers never go down along the loop. *)
Lemma scan_sorted ms : forall st,
  Forall (fun pt => (cur_line st <= line (snd pt))%Z) (scan ms st)
  /\ StronglySorted Z.le (map (fun pt => line (snd pt)) (scan ms st)).
Proof.
  induction ms as [|m ms IH]; intros st; simpl; [split; constructor|].
  assert (Hb : let (e, st') := body m st in
               (cur_line st <= cur_line st')%Z
               /\ match e with
                  | Some t => line t = cur_line st
                  | None => True
                  end).
  { unfold body.
    destruct (group m) as [|[|[|[|[|[|[|[|[|]]]]]]]]]; simpl;
      try (split; [lia|reflexivity]); try (split; [lia|exact I]).
    destruct (_ || _); simpl; split; (lia || reflexivity). }
  destruct (body m st) as [[t|] st'], Hb as [Hle Ht];
    destruct (IH st') as [Hall Hsorted].
  - assert (Hall' : Forall (fun pt => (cur_line st <= line (snd pt))%Z)
                      (scan ms st'))
      by (eapply Forall_impl; [|exact Hall]; simpl; intros; lia).
    split.
    + constructor; [simpl; lia|exact Hall'].
    + simpl. constructor; [exact Hsorted|].
      rewrite Forall_map. rewrite Ht. exact Hall'.
  - split; [|exact Hsorted].
    eapply Forall_impl; [|exact Hall]. simpl. intros. lia.
Qed.

(** The type of a token tells the group of its match. *)
Lemma body_type m st t st' :
  body m st = (Some t, st') ->
  value t = str m
  /\ (type t = KEYWORD -> group m = 1)
  /\ (type t = OPERATOR -> group m = 4)
  /\ (type t = PUNCTUATION -> group m = 5).
Proof.
  unfold body.
  destruct (group m) as [|[|[|[|[|[|[|[|[|]]]]]]]]]; simpl;
    intros [= <- <-]; simpl; repeat split; (reflexivity || discriminate).
Qed.

Lemma scan_listed fuel : forall pos s ms st,
  matches_from fuel pos s = Some ms ->
  Forall (fun pt => listed (snd pt)) (scan ms st).
Proof.
  induction fuel as [|fuel IH]; intros pos s ms st; simpl; [discriminate|].
  destruct (regex_search s) as [[[k g] len]|] eqn:E;
    [|intros [= <-]; constructor].
  apply regex_search_some in E as (Hm & _ & _).
  apply match_here_word in Hm as (Hkw & Hop & Hpu).
  destruct (matches_from fuel _ _) as [ms'|] eqn:Erest; [|discriminate].
  simpl. intros [= <-]. simpl scan.
  set (m := mkMatch g (pos + k)
              (string_of_list_ascii (firstn len (skipn k s)))).
  destruct (body m st) as [[t|] st'] eqn:Eb; [|eapply IH; eassumption].
  constructor; [|eapply IH; eassumption].
  apply body_type in Eb as (Hv & Hk & Ho & Hp). simpl snd.
  split; [|split]; intros Ht.
  - destruct (Hkw (Hk Ht)) as (w & Hin & Hw). rewrite Hv. unfold m. simpl str.
    rewrite Hw, string_of_list_ascii_of_string. exact Hin.
  - destruct (Hop (Ho Ht)) as (w & Hin & Hw). rewrite Hv. unfold m. simpl str.
    rewrite Hw, string_of_list_ascii_of_string. exact Hin.
  - destruct (Hpu (Hp Ht)) as (c & Hc & Hw). exists c. split; [exact Hc|].
    rewrite Hv. unfold m. simpl str. rewrite Hw. reflexivity.
Qed.

Lemma tokenize_listed source toks :
  tokenize source = Some toks -> Forall listed toks.
Proof.
  unfold tokenize, tokenize_at, sregex_iterator.
  destruct (matches_from _ _ _) as [ms|] eqn:E; [|discriminate].
  simpl. intros [= <-]. rewrite Forall_map. eapply scan_listed. exact E.
Qed.

(** With their offsets, the tokens of a source are placed from line 1. *)
Lemma tokenize_at_placed source :
  exists pts,
    tokenize_at source = Some pts
    /\ Forall (placed 1 (list_ascii_of_string source)) pts.
Proof.
  unfold tokenize_at, sregex_iterator.
  destruct (matches_fuel (S (List.length (list_ascii_of_string source))) 0
              (list_ascii_of_string source)) as [ms Hms]; [lia|].
  rewrite Hms. simpl. eexists. split; [reflexivity|].
  apply (scan_placed 1 _ [] (list_ascii_of_string source) ms init Hms).
  reflexivity.
Qed.

End LexerFacts.

(** * Properties of the parser *)
Module ParserFacts.

Import Parser ParserSpec.
Local Open Scope list_scope.

Lemma bind_run {A B} (m : M A) (k : A -> M B) p :
  bind m k p =
  match m p with
  | Return a p' => k a p'
  | Throw what p' => Throw what p'
  | Undefined u p' => Undefined u p'
  | OutOfFuel => OutOfFuel
  end.
Proof. reflexivity. Qed.

Lemma isAtEnd_run p :
  isAtEnd p
  = Return (match next p with Some _ => false | None => true end) p.
Proof.
  unfold isAtEnd, next. f_equal.
  destruct (nth_error (tokens p) (position p)) eqn:E.
  - apply Nat.leb_gt. apply nth_error_Some. congruence.
  - apply Nat.leb_le. apply nth_error_None. exact E.
Qed.

Lemma peek_run p :
  peek p = match next p with
           | Some t => Return t p
           | None => Undefined (ReadPastEnd (position p)) p
           end.
Proof. reflexivity. Qed.

Lemma previous_stepped p t :
  next p = Some t -> previous (stepped p) = Return t (stepped p).
Proof. unfold previous, next. simpl. intros ->. reflexivity. Qed.

Lemma advance_next p t :
  next p = Some t -> advance p = Return t (stepped p).
Proof.
  intros E. unfold advance. rewrite bind_run, isAtEnd_run, E.
  rewrite bind_run. unfold step_position. fold (stepped p).
  apply previous_stepped, E.
Qed.

(** [match] never fails: it consumes the token under the cursor when the
    token passes the test and leaves the state alone otherwise. *)
Lemma match_run ty v p :
  match_ ty v p =
  match next p with
  | Some t => if accepts ty v t then Return true (stepped p)
              else Return false p
  | None => Return false p
  end.
Proof.
  unfold match_. rewrite bind_run, isAtEnd_run.
  destruct (next p) as [t|] eqn:E; [|reflexivity].
  rewrite bind_run, peek_run, E. unfold accepts.
  destruct (TokenType_eqb (type t) ty); simpl; [|reflexivity].
  destruct (String.eqb v EmptyString); simpl.
  - rewrite bind_run, (advance_next p t E). reflexivity.
  - destruct (String.eqb (value t) v); simpl; [|reflexivity].
    rewrite bind_run, (advance_next p t E). reflexivity.
Qed.

Lemma next_some_lt p t : next p = Some t -> position p < List.length (tokens p).
Proof. intros H. apply nth_error_Some. unfold next in H. congruence. Qed.

Lemma next_none_le p : next p = None -> List.length (tokens p) <= position p.
Proof. apply nth_error_None. Qed.

(** [advance] moves over one token when one is left; its result, the token
    before the cursor, exists as soon as the cursor is not at 0. *)
Lemma advance_run p :
  1 <= position p <= List.length (tokens p) ->
  exists t, advance p
            = Return t (match next p with Some _ => stepped p | None => p end).
Proof.
  intros [Hlo Hhi]. destruct (next p) as [t|] eqn:E.
  - rewrite (advance_next p t E). eauto.
  - unfold advance. rewrite bind_run, isAtEnd_run, E.
    unfold previous. destruct (position p) as [|i] eqn:Ei; [lia|].
    destruct (nth_error (tokens p) i) as [t|] eqn:Et; [eauto|].
    apply nth_error_None in Et. lia.
Qed.

Lemma previous_run p :
  1 <= position p <= List.length (tokens p) ->
  exists t, previous p = Return t p.
Proof.
  intros [Hlo Hhi]. unfold previous. destruct (position p) as [|i]; [lia|].
  destruct (nth_error (tokens p) i) as [t|] eqn:Et; [eauto|].
  apply nth_error_None in Et. lia.
Qed.

(** The for-loop route is taken only on a token [Keyword "for"]. *)
Lemma dispatch_for_route p p' :
  dispatch p = Return ToForStatement p' ->
  exists t, next p = Some t /\ accepts KEYWORD "for" t = true.
Proof.
  unfold dispatch, orM. destruct (next p) as [t|] eqn:E.
  - repeat (rewrite ?bind_run; rewrite match_run, E;
            match goal with
            | |- context [accepts ?ty ?v t] => destruct (accepts ty v t) eqn:?
            end;
            unfold ret; cbv beta iota; try discriminate).
    eauto.
  - repeat (rewrite ?bind_run; rewrite match_run, E; unfold ret;
            cbv beta iota).
    discriminate.
Qed.

(** ** The bracket tracker and the cursor along a parse *)
Section Invariant.

Variable toks : list Token.

Local Abbreviation good := (ParserSpec.good toks).
Local Abbreviation paired := (ParserSpec.paired toks).
Local Abbreviation remaining := (ParserSpec.remaining toks).
Local Abbreviation sat := (ParserSpec.sat toks).

Lemma sat_ret {A} (a : A) p (Q : A -> State -> Prop) :
  Q a p -> sat (ret a) p Q.
Proof. exact (fun H => H). Qed.

Lemma sat_bind {A B} (m : M A) (k : A -> M B) p (Q : B -> State -> Prop) :
  sat m p (fun a p' => sat (k a) p' Q) -> sat (bind m k) p Q.
Proof. unfold sat, bind. destruct (m p); auto. Qed.

Lemma sat_mono {A} (m : M A) p (Q Q' : A -> State -> Prop) :
  sat m p Q -> (forall a p', Q a p' -> Q' a p') -> sat m p Q'.
Proof. unfold sat. destruct (m p); auto. Qed.

(** [m] followed by [k], with the postcondition of [m] named. *)
Lemma sat_seq {A B} (m : M A) (k : A -> M B) p
    (R : A -> State -> Prop) (Q : B -> State -> Prop) :
  sat m p R -> (forall a p', R a p' -> sat (k a) p' Q) -> sat (bind m k) p Q.
Proof. intros Hm Hk. apply sat_bind. eapply sat_mono; eauto. Qed.

Lemma good_paired bs ls lo p :
  good bs ls lo p -> List.length bs = List.length ls -> paired p.
Proof. intros (Ht & Hb & Hl & _) Hlen. split; congruence. Qed.

Lemma good_stepped bs ls lo p t :
  good bs ls lo p -> next p = Some t -> good bs ls (S (position p)) (stepped p).
Proof.
  intros (Ht & Hb & Hl & Hlo & Hhi) Hn. apply next_some_lt in Hn.
  rewrite Ht in Hn. repeat split; simpl; auto.
Qed.

Lemma good_weaken bs ls lo lo' p :
  good bs ls lo p -> lo' <= lo -> good bs ls lo' p.
Proof. intros (Ht & Hb & Hl & Hlo & Hhi) Hle. repeat split; auto; lia. Qed.

Lemma sat_match ty v bs ls lo p :
  good bs ls lo p ->
  sat (match_ ty v) p
    (fun b p' => if b then good bs ls (S (position p)) p' else p' = p).
Proof.
  intros Hg. unfold sat. rewrite match_run.
  destruct (next p) as [t|] eqn:E; [|reflexivity].
  destruct (accepts ty v t); [|reflexivity].
  eapply good_stepped; eauto.
Qed.

Lemma sat_throw_at_line {A} what bs ls lo p (Q : A -> State -> Prop) :
  good bs ls lo p -> List.length bs = List.length ls ->
  sat (throw_at_line what) p Q.
Proof.
  intros Hg Hlen. pose proof (good_paired _ _ _ _ Hg Hlen) as Hp.
  unfold sat, throw_at_line, bind, peek. fold (next p).
  destruct (next p) as [t|] eqn:E; simpl; [exact Hp|].
  split; [exact Hp|]. apply next_none_le in E.
  destruct Hg as (Ht & _ & _ & _ & Hhi). rewrite Ht in E. f_equal. lia.
Qed.

Lemma sat_expect ty v what bs ls lo p :
  good bs ls lo p -> List.length bs = List.length ls ->
  sat (expect ty v what) p (fun _ p' => good bs ls (S (position p)) p').
Proof.
  intros Hg Hlen. unfold expect.
  eapply sat_seq; [eapply sat_match; eassumption|].
  intros [] p' H; [exact H|subst p'].
  eapply sat_throw_at_line; eassumption.
Qed.

Lemma sat_previous bs ls lo p :
  good bs ls lo p -> 1 <= lo ->
  sat previous p (fun _ p' => p' = p).
Proof.
  intros (Ht & _ & _ & Hlo & Hhi) H1. unfold sat.
  destruct (previous_run p) as [t ->]; [rewrite Ht; lia|reflexivity].
Qed.

Lemma sat_advance bs ls lo p :
  good bs ls lo p -> 1 <= lo ->
  sat advance p (fun _ p' => good bs ls (position p) p').
Proof.
  intros Hg H1. pose proof Hg as (Ht & Hb & Hl & Hlo & Hhi). unfold sat.
  destruct (advance_run p) as [t ->]; [rewrite Ht; lia|].
  destruct (next p) as [t'|] eqn:E.
  - eapply good_weaken; [eapply good_stepped; eauto|lia].
  - repeat split; auto.
Qed.

Lemma sat_open_bracket c bs ls lo p :
  good bs ls lo p -> 1 <= lo ->
  sat (open_bracket c) p
    (fun _ p' => exists l, good (c :: bs) (l :: ls) (position p) p').
Proof.
  intros (Ht & Hb & Hl & Hlo & Hhi) H1.
  unfold sat, open_bracket, bind, bracketStack_push.
  match goal with |- context [previous ?q] =>
    destruct (previous_run q) as [t ->]; [simpl; rewrite Ht; lia|]
  end.
  unfold lineStack_push. simpl. exists (line t).
  repeat split; simpl; auto; congruence.
Qed.

Lemma sat_close_bracket c l bs ls lo p :
  good (c :: bs) (l :: ls) lo p ->
  sat close_bracket p (fun _ p' => good bs ls (position p) p').
Proof.
  intros (Ht & Hb & Hl & Hlo & Hhi).
  unfold sat, close_bracket, bind, bracketStack_pop, lineStack_pop.
  rewrite Hb. simpl. rewrite Hl. repeat split; simpl; auto.
Qed.

(** ** Expressions *)

Lemma sat_parseExpression fuel : forall bs ls lo p,
  good bs ls lo p -> 1 <= lo -> remaining p < fuel ->
  sat (parseExpression fuel) p (fun _ p' => good bs ls (position p) p').
Proof.
  induction fuel as [|fuel IH]; intros bs ls lo p Hg H1 Hfuel; [lia|].
  simpl. eapply sat_seq; [eapply sat_match; eassumption|].
  intros [] p1 Hp1.
  - eapply sat_seq; [eapply sat_previous; [eassumption|lia]|].
    intros t p2 ->. destruct Hp1 as (Ht & Hb & Hl & Hlo & Hhi).
    eapply sat_seq.
    + apply (IH bs ls 1 p1); [repeat split; auto; lia| lia|].
      unfold remaining in *. lia.
    + intros right p3 Hp3. apply sat_ret.
      eapply good_weaken; [exact Hp3|lia].
  - subst p1. eapply sat_seq; [eapply sat_advance; eassumption|].
    intros t p2 Hp2. apply sat_ret. exact Hp2.
Qed.

(** Closes goals about cursors, fuel and stack heights from the [good]
    facts collected so far. *)
Ltac crush :=
  cbv beta in *; unfold ParserSpec.good, ParserSpec.remaining in *;
  simpl in *;
  repeat match goal with H : _ /\ _ |- _ => destruct H end;
  repeat split; first [assumption | congruence | lia].

(** One call of the body of a parse function. *)
Ltac run_step :=
  cbv beta in *;
  lazymatch goal with
  | |- sat (bind (expect _ _ _) _) _ _ =>
      eapply sat_seq;
      [eapply sat_expect; [eassumption|solve [crush]]|intros [] ? ?]
  | |- sat (bind (open_bracket _) _) _ _ =>
      eapply sat_seq;
      [eapply sat_open_bracket; [eassumption|solve [crush]]
      |intros [] ? [? ?]]
  | |- sat (bind close_bracket _) _ _ =>
      eapply sat_seq; [eapply sat_close_bracket; eassumption|intros [] ? ?]
  | |- sat (bind (parseExpression _) _) _ _ =>
      eapply sat_seq;
      [eapply sat_parseExpression; [eassumption|solve [crush]..]
      |intros ? ? ?]
  | |- sat (bind previous _) _ _ =>
      eapply sat_seq;
      [eapply sat_previous; [eassumption|solve [crush]]|intros ? ? ->]
  | |- sat (ret _) _ _ => apply sat_ret; solve [crush]
  end.

(** ** Simple statements *)

Lemma sat_declarators fuel : forall identifiers bs ls lo p,
  good bs ls lo p -> List.length bs = List.length ls ->
  remaining p < fuel ->
  sat (declarators fuel identifiers) p
    (fun _ p' => good bs ls (S (position p)) p').
Proof.
  induction fuel as [|fuel IH]; intros ids bs ls lo p Hg Hlen Hfuel; [lia|].
  simpl. eapply sat_seq; [eapply sat_match; eassumption|].
  intros [] p1 Hp1.
  - run_step. eapply sat_seq; [eapply sat_match; eassumption|].
    intros [] p2 Hp2.
    + eapply sat_mono; [eapply IH; [eassumption|assumption|crush]|].
      simpl. intros. crush.
    + subst p2. run_step.
  - subst p1. eapply sat_throw_at_line; eassumption.
Qed.

Lemma sat_parseVariableDeclaration fuel bs ls lo p :
  good bs ls lo p -> 1 <= lo -> List.length bs = List.length ls ->
  remaining p < fuel ->
  sat (parseVariableDeclaration fuel) p
    (fun _ p' => good bs ls (S (position p)) p').
Proof.
  intros Hg H1 Hlen Hfuel. unfold parseVariableDeclaration. run_step.
  eapply sat_seq; [eapply sat_declarators; eassumption|]. intros ids p1 Hp1.
  run_step. run_step.
Qed.

Lemma sat_parseFileDeclaration bs ls lo p :
  good bs ls lo p -> List.length bs = List.length ls ->
  sat parseFileDeclaration p (fun _ p' => good bs ls (S (position p)) p').
Proof.
  intros Hg Hlen. unfold parseFileDeclaration. repeat run_step.
Qed.

Lemma sat_parseFileOperation bs ls lo p :
  good bs ls lo p -> 1 <= lo -> List.length bs = List.length ls ->
  sat parseFileOperation p (fun _ p' => good bs ls (S (position p)) p').
Proof.
  intros Hg H1 Hlen. unfold parseFileOperation. run_step.
  eapply sat_seq; [eapply sat_match; eassumption|]. intros [] p1 Hp1.
  - repeat run_step.
  - subst p1. eapply sat_throw_at_line; eassumption.
Qed.

(** ** Compound statements, given what the nested statement parser does *)
Section CompoundFacts.

Variable stmt : M unit.
Variable fuel : nat.

Hypothesis stmt_sat : forall bs ls lo p,
  good bs ls lo p -> List.length bs = List.length ls ->
  remaining p < fuel ->
  sat stmt p (fun _ p' => good bs ls (S (position p)) p').

Lemma sat_block n : forall bs ls lo p,
  good bs ls lo p -> List.length bs = List.length ls ->
  remaining p < n -> remaining p < fuel ->
  sat (block stmt n) p (fun _ p' => good bs ls (S (position p)) p').
Proof.
  induction n as [|n IH]; intros bs ls lo p Hg Hlen Hn Hfuel; [lia|].
  simpl. eapply sat_seq; [eapply sat_match; eassumption|].
  intros [] p1 Hp1.
  - run_step.
  - subst p1. eapply sat_seq; [eapply stmt_sat; eassumption|].
    intros [] p2 Hp2.
    eapply sat_mono; [eapply IH; [eassumption|assumption|crush..]|].
    simpl. intros. crush.
Qed.

Ltac run_block :=
  cbv beta in *;
  eapply sat_seq;
  [eapply sat_block; [eassumption|solve [crush]..]|intros [] ? ?].

Lemma sat_parseIfStatement bs ls lo p :
  good bs ls lo p -> 1 <= lo -> List.length bs = List.length ls ->
  remaining p < fuel ->
  sat (parseIfStatement stmt fuel) p
    (fun _ p' => good bs ls (S (position p)) p').
Proof.
  intros Hg H1 Hlen Hfuel. unfold parseIfStatement.
  repeat run_step. run_block. repeat run_step.
Qed.

Lemma sat_parseWhileStatement bs ls lo p :
  good bs ls lo p -> 1 <= lo -> List.length bs = List.length ls ->
  remaining p < fuel ->
  sat (parseWhileStatement stmt fuel) p
    (fun _ p' => good bs ls (S (position p)) p').
Proof.
  intros Hg H1 Hlen Hfuel. unfold parseWhileStatement.
  repeat run_step. run_block. repeat run_step.
Qed.

Lemma sat_parseForStatement bs ls lo p :
  good bs ls lo p -> 1 <= lo -> List.length bs = List.length ls ->
  remaining p < fuel ->
  sat (parseForStatement stmt fuel) p
    (fun _ p' => good bs ls (S (position p)) p').
Proof.
  intros Hg H1 Hlen Hfuel. unfold parseForStatement.
  repeat run_step. run_block. repeat run_step.
Qed.

End CompoundFacts.

(** ** Statements and the program *)

Lemma sat_orM (a b : M bool) p (Q : bool -> State -> Prop) :
  sat a p (fun x p' => if x then Q true p' else sat b p' Q) ->
  sat (orM a b) p Q.
Proof.
  intros H. unfold orM. apply sat_bind. eapply sat_mono; [exact H|].
  intros [] p' Hx; [apply sat_ret|]; exact Hx.
Qed.

Lemma sat_peek {A} (k : Token -> M A) bs ls lo p (Q : A -> State -> Prop) :
  good bs ls lo p -> List.length bs = List.length ls ->
  (forall t, next p = Some t -> sat (k t) p Q) ->
  sat (bind peek k) p Q.
Proof.
  intros Hg Hlen Hk. unfold sat. rewrite bind_run, peek_run.
  destruct (next p) as [t|] eqn:E; [exact (Hk t eq_refl)|].
  split; [eapply good_paired; eassumption|].
  apply next_none_le in E. destruct Hg as (Ht & _ & _ & _ & Hhi).
  rewrite Ht in E. f_equal. lia.
Qed.

(** Every route but the last has consumed the leading token. *)
Lemma sat_dispatch bs ls lo p :
  good bs ls lo p ->
  sat dispatch p
    (fun (route : Route) (p' : State) =>
       match route with
       | ToUnexpectedToken => p' = p
       | _ => good bs ls (S (position p)) p'
       end).
Proof.
  intros Hg. unfold dispatch.
  eapply sat_seq; [eapply sat_match; eassumption|].
  intros [] p1 Hp1; [apply sat_ret; exact Hp1|subst p1].
  eapply sat_seq with
    (R := fun (b : bool) (p' : State) =>
            if b then good bs ls (S (position p)) p' else p' = p).
  { apply sat_orM. eapply sat_mono; [eapply sat_match; eassumption|].
    intros [] p1 Hp1; [exact Hp1|subst p1].
    apply sat_orM. eapply sat_mono; [eapply sat_match; eassumption|].
    intros [] p1 Hp1; [exact Hp1|subst p1].
    eapply sat_match; eassumption. }
  intros [] p1 Hp1; [apply sat_ret; exact Hp1|subst p1].
  eapply sat_seq; [eapply sat_match; eassumption|].
  intros [] p1 Hp1; [apply sat_ret; exact Hp1|subst p1].
  eapply sat_seq; [eapply sat_match; eassumption|].
  intros [] p1 Hp1; [apply sat_ret; exact Hp1|subst p1].
  eapply sat_seq; [eapply sat_match; eassumption|].
  intros [] p1 Hp1; [apply sat_ret; exact Hp1|subst p1].
  eapply sat_seq; [eapply sat_match; eassumption|].
  intros [] p1 Hp1; [apply sat_ret; exact Hp1|subst p1].
  apply sat_ret. reflexivity.
Qed.

(** A statement that returns has consumed at least one token and has put
    the stacks back as it found them. *)
Lemma sat_parseStatement fuel : forall bs ls lo p,
  good bs ls lo p -> List.length bs = List.length ls ->
  remaining p < fuel ->
  sat (parseStatement fuel) p (fun _ p' => good bs ls (S (position p)) p').
Proof.
  induction fuel as [|fuel IH]; intros bs ls lo p Hg Hlen Hfuel; [lia|].
  simpl. eapply sat_seq; [eapply sat_dispatch; eassumption|].
  intros route p1 Hp1. destruct route.
  - eapply sat_seq;
      [eapply sat_parseVariableDeclaration; [eassumption|solve [crush]..]|].
    intros; run_step.
  - eapply sat_seq; [eapply sat_parseFileDeclaration; eassumption|].
    intros; run_step.
  - eapply sat_seq;
      [eapply sat_parseFileOperation; [eassumption|solve [crush]..]|].
    intros; run_step.
  - eapply sat_seq;
      [eapply sat_parseIfStatement;
       [exact IH|eassumption|solve [crush]..]|].
    intros; run_step.
  - eapply sat_seq;
      [eapply sat_parseWhileStatement;
       [exact IH|eassumption|solve [crush]..]|].
    intros; run_step.
  - eapply sat_seq;
      [eapply sat_parseForStatement;
       [exact IH|eassumption|solve [crush]..]|].
    intros; run_step.
  - subst p1. eapply sat_peek; [eassumption..|]. intros t _.
    eapply sat_peek; [eassumption..|]. intros t' _.
    eapply good_paired; eassumption.
Qed.

Lemma sat_statements fuel n : forall lo p,
  good [] [] lo p -> remaining p < n -> remaining p < fuel ->
  sat (statements fuel n) p (fun _ p' => good [] [] (position p) p').
Proof.
  induction n as [|n IH]; intros lo p Hg Hn Hfuel; [lia|].
  simpl. apply sat_bind. unfold sat at 1. rewrite isAtEnd_run.
  destruct (next p) as [t|] eqn:E.
  - eapply sat_seq;
      [eapply sat_parseStatement; [eassumption|reflexivity|assumption]|].
    intros [] p1 Hp1. eapply sat_mono; [eapply IH; [eassumption|crush..]|].
    cbv beta. intros. crush.
  - apply sat_ret. crush.
Qed.

Lemma sat_parseProgram fuel lo p :
  good [] [] lo p -> remaining p < fuel ->
  sat (parseProgram fuel) p (fun a p' => a = None /\ good [] [] lo p').
Proof.
  intros Hg Hfuel. unfold parseProgram.
  eapply sat_seq; [eapply sat_statements; eassumption|].
  intros [] p1 Hp1. apply sat_bind. unfold sat at 1, bracketStack_empty.
  assert (Hb : bracketStack p1 = []) by crush. rewrite Hb.
  apply sat_ret. split; [reflexivity|crush].
Qed.

End Invariant.

(** [parse] has fuel enough, returns [nullptr] whenever it returns, and
    then both stacks are empty. *)
Lemma sat_parse toks :
  sat toks (parseProgram (S (List.length toks))) (init toks)
    (fun a p' => a = None /\ good toks [] [] 0 p').
Proof.
  apply sat_parseProgram; unfold good, remaining, init; simpl;
    repeat split; lia.
Qed.

End ParserFacts.

(** * Facts about whole runs *)

Import Parser ParserSpec LexerSpec.
Local Open Scope list_scope.

(** The line counter stays within the length of the source plus one, so it
    fits the C++ [int] for every source shorter than 2^31 - 1 characters. *)
Lemma tokenize_line_fits (source : string) :
  exists toks,
    Lexer.tokenize source = Some toks
    /\ Forall (fun t => 1 <= line t <= 1 + Z.of_nat (String.length source))%Z
         toks.
Proof.
  unfold Lexer.tokenize.
  destruct (LexerFacts.tokenize_at_placed source) as (pts & -> & Hplaced).
  cbn [option_map]. eexists. split; [reflexivity|].
  rewrite Forall_map. eapply Forall_impl; [|exact Hplaced].
  intros [pos t] (Hline & _ & _). cbn [snd]. rewrite Hline.
  pose proof (count_occ_bound ascii_dec LF
                (firstn pos (list_ascii_of_string source))) as Hb.
  rewrite <- RegexFacts.length_list_ascii_of_string.
  unfold newlines.
  assert (List.length (firstn pos (list_ascii_of_string source))
          <= List.length (list_ascii_of_string source))
    by (rewrite length_firstn; lia).
  lia.
Qed.

Lemma listed_not_for (t : Token) :
  listed t -> accepts KEYWORD "for" t = false.
Proof.
  intros (Hkw & _ & _). unfold accepts.
  destruct (type t); try reflexivity. specialize (Hkw eq_refl).
  simpl in Hkw. simpl.
  repeat (destruct Hkw as [<-|Hkw]; [reflexivity|]). contradiction.
Qed.

Lemma listed_not_bang (t : Token) : listed t -> is_not t = false.
Proof.
  intros (_ & Hop & _). unfold is_not, accepts.
  destruct (type t); try reflexivity. specialize (Hop eq_refl).
  simpl in Hop. simpl.
  repeat (destruct Hop as [<-|Hop]; [reflexivity|]). contradiction.
Qed.

Lemma punctuation_not_dot (c : ascii) :
  punctuation_char c = true -> Ascii.eqb c "." = false.
Proof.
  destruct c as [[] [] [] [] [] [] [] []]; vm_compute; intros;
    first [reflexivity | discriminate].
Qed.

Lemma listed_not_dot (t : Token) :
  listed t -> accepts PUNCTUATION "." t = false.
Proof.
  intros (_ & _ & Hpu). unfold accepts.
  destruct (type t); try reflexivity.
  destruct (Hpu eq_refl) as (c & Hc & ->). simpl.
  rewrite (punctuation_not_dot c Hc). reflexivity.
Qed.

(** No source makes the tokenizer emit a punctuation dot, which is what
    [parseFileOperation] asks for after the identifier: on the tokens of any
    source no member call is accepted. *)
Lemma member_call_never_accepted (source : string) :
  exists toks,
    Lexer.tokenize source = Some toks
    /\ Forall (fun t => accepts PUNCTUATION "." t = false) toks
    /\ forall p a p', tokens p = toks -> parseFileOperation p <> Return a p'.
Proof.
  destruct (LexerFacts.tokenize_total source) as [toks Htoks].
  exists toks. split; [exact Htoks|].
  pose proof (LexerFacts.tokenize_listed source toks Htoks) as Hl.
  assert (Hall : Forall (fun t => accepts PUNCTUATION "." t = false) toks)
    by (eapply Forall_impl; [|exact Hl]; exact listed_not_dot).
  split; [exact Hall|].
  intros p a p' Hp. unfold parseFileOperation.
  assert (Hthrow : forall q what,
            @throw_at_line (option ASTNode) what q <> Return a p').
  { intros q what. unfold throw_at_line.
    rewrite ParserFacts.bind_run, ParserFacts.peek_run.
    destruct (next q); discriminate. }
  assert (Hprev : forall r q, previous p = Return r q -> q = p).
  { unfold previous. destruct (position p); [discriminate|].
    destruct (nth_error _ _); [|discriminate].
    intros r q [= _ <-]. reflexivity. }
  rewrite ParserFacts.bind_run.
  destruct (previous p) as [r q|w q|u q|] eqn:Eprev; try discriminate.
  rewrite (Hprev r q eq_refl).
  rewrite ParserFacts.bind_run, ParserFacts.match_run.
  destruct (next p) as [t|] eqn:E; [|apply Hthrow].
  assert (Ha : accepts PUNCTUATION "." t = false).
  { unfold next in E. rewrite Hp in E. apply nth_error_In in E.
    rewrite Forall_forall in Hall. auto. }
  rewrite Ha. apply Hthrow.
Qed.

(** No source makes the tokenizer emit the keyword [for] or the operator
    [!]: on the tokens of any source the dispatcher never takes the for-loop
    route. *)
Lemma tokenizer_never_emits_for_keyword (source : string) :
  exists toks,
    Lexer.tokenize source = Some toks
    /\ Forall (fun t => accepts KEYWORD "for" t = false /\ is_not t = false)
         toks
    /\ forall p p', tokens p = toks -> dispatch p <> Return ToForStatement p'.
Proof.
  destruct (LexerFacts.tokenize_total source) as [toks Htoks].
  exists toks. split; [exact Htoks|].
  pose proof (LexerFacts.tokenize_listed source toks Htoks) as Hl.
  assert (Hall : Forall (fun t => accepts KEYWORD "for" t = false
                                  /\ is_not t = false) toks).
  { eapply Forall_impl; [|exact Hl].
    intros t Ht.
    split; [apply listed_not_for|apply listed_not_bang]; exact Ht. }
  split; [exact Hall|].
  intros p p' Hp Hd.
  apply ParserFacts.dispatch_for_route in Hd as (t & Hn & Ha).
  unfold next in Hn. rewrite Hp in Hn. apply nth_error_In in Hn.
  rewrite Forall_forall in Hall. destruct (Hall t Hn) as [Hf _]. congruence.
Qed.

(** The check for mismatched brackets in [parseProgram] is dead code:
    whenever the loop over the statements ends normally, both stacks are
    empty. *)
Lemma mismatch_check_unreachable (toks : list Token) :
  match statements (S (List.length toks)) (S (List.length toks)) (init toks)
  with
  | Return _ p => bracketStack p = [] /\ lineStack p = []
  | _ => True
  end.
Proof.
  assert (Hs : sat toks
                 (statements (S (List.length toks)) (S (List.length toks)))
                 (init toks)
                 (fun _ p' => good toks [] [] (position (init toks)) p')).
  { apply ParserFacts.sat_statements with (lo := 0);
      unfold good, remaining, init; simpl; repeat split; auto; lia. }
  unfold sat in Hs.
  destruct (statements _ _ _); auto. destruct Hs as (_ & Hb & Hl & _). auto.
Qed.

Lemma skipn_next (p : State) :
  skipn (position p) (tokens p)
  = match next p with
    | Some t => t :: skipn (S (position p)) (tokens p)
    | None => []
    end.
Proof.
  unfold next. generalize (position p) as n. generalize (tokens p) as l.
  induction l as [|t l IH]; intros [|n]; simpl; auto.
Qed.

Lemma moved_stepped (n : nat) (p : State) : moved n (stepped p) = moved (S n) p.
Proof. unfold moved, stepped. simpl. f_equal. lia. Qed.

Lemma moved_0 (p : State) : moved 0 p = p.
Proof. destruct p. unfold moved. simpl. f_equal. lia. Qed.

Lemma leading_nots_unfold (p : State) :
  leading_nots p
  = match next p with
    | Some t => if is_not t then S (leading_nots (stepped p)) else 0
    | None => 0
    end.
Proof.
  unfold leading_nots. rewrite skipn_next. destruct (next p); reflexivity.
Qed.

Lemma is_not_value (t : Token) : is_not t = true -> value t = "!"%string.
Proof.
  unfold is_not, accepts. intros H. apply andb_prop in H as [_ Hv].
  simpl in Hv. apply String.eqb_eq in Hv. exact Hv.
Qed.

(** * The claims *)

(** C1. The source [int a, b;] gives the five tokens of the claim, and
    [parseVariableDeclaration] builds the declaration of [a] and [b] with
    type [int]; but [parseStatement] drops that node and [parse] returns
    [nullptr], which [main] reports as a failed parse. Whatever the tokens,
    a parse that returns returns [nullptr]. *)
Theorem int_a_b_parse_returns_null :
  let toks := [Keyword "int" 1; Identifier "a" 1; Punctuation "," 1;
               Identifier "b" 1; Punctuation ";" 1] in
  Lexer.tokenize "int a, b;" = Some toks
  /\ parseVariableDeclaration 5 (mkState toks 1 [] [])
     = Return (Some (DeclarationNode "int" ["a"; "b"])%string)
         (mkState toks 5 [] [])
  /\ parse toks = Return None (mkState toks 5 [] [])
  /\ forall any, match parse any with
                 | Return tree _ => tree = None
                 | _ => True
                 end.
Proof.
  repeat split; try reflexivity.
  intros any. pose proof (ParserFacts.sat_parse any) as Hs.
  unfold sat, parse, parse_with in *.
  destruct (parseProgram (S (List.length any)) (init any)); auto.
  destruct Hs as [? _]. assumption.
Qed.

(** C2. In the source [foo.bar();] the words are identifiers, the dot is an
    operator and the parentheses and the semicolon are punctuation; the
    parser asks for a punctuation dot after the identifier, does not find
    one, and throws at the dot instead of accepting the member call. *)
Theorem foo_bar_call_is_rejected :
  let toks := [Identifier "foo" 1; Operator "." 1; Identifier "bar" 1;
               Punctuation "(" 1; Punctuation ")" 1; Punctuation ";" 1] in
  Lexer.tokenize "foo.bar();" = Some toks
  /\ parse toks
     = Throw "Unexpected token after file identifier at line 1"
         (mkState toks 1 [] []).
Proof. repeat split; reflexivity. Qed.

(** C3. The word [for] is no alternative of the keyword group, so it comes
    out of the tokenizer as an identifier; the dispatcher then takes the
    member-call route, not the for-loop route, and a well-formed for
    statement is rejected. *)
Theorem for_word_routes_to_member_call :
  let toks := [Identifier "for" 1; Punctuation "(" 1; Identifier "a" 1;
               Punctuation ";" 1; Identifier "b" 1; Punctuation ";" 1;
               Identifier "c" 1; Punctuation ")" 1; Punctuation "{" 1;
               Punctuation "}" 1] in
  Lexer.tokenize "for (a; b; c) { }" = Some toks
  /\ dispatch (init toks) = Return ToFileOperation (mkState toks 1 [] [])
  /\ parse toks
     = Throw "Unexpected token after file identifier at line 1"
         (mkState toks 1 [] []).
Proof. repeat split; reflexivity. Qed.

(** C4, as the code has it. At a cursor that has a token before it (the
    parser calls [parseExpression] only after an opening parenthesis or a
    semicolon has been consumed), with [k] tokens [Operator "!"] under the
    cursor and after it: [parseExpression] consumes them and returns [k]
    nested [UnaryOperationNode]s with operator [!], the operand of each
    being the result of parsing the rest; the innermost call, on a token
    that is not [Operator "!"], consumes exactly that token and returns
    [nullptr], and at the end of the tokens it consumes nothing and returns
    [nullptr]. *)
Theorem parseExpression_not_prefix (fuel : nat) (p : State) :
  1 <= position p <= List.length (tokens p) ->
  leading_nots p < fuel ->
  let k := leading_nots p in
  parseExpression fuel p
  = Return (nots k)
      (moved
         (k + if Nat.ltb (position p + k) (List.length (tokens p))
              then 1 else 0)
         p).
Proof.
  revert p. induction fuel as [|fuel IH]; intros p Hpos Hk; [lia|].
  cbv zeta. simpl parseExpression. rewrite ParserFacts.bind_run.
  rewrite ParserFacts.match_run. rewrite leading_nots_unfold in Hk |- *.
  destruct (next p) as [t|] eqn:E.
  - pose proof (ParserFacts.next_some_lt p t E) as Hlt.
    change (accepts OPERATOR "!" t) with (is_not t).
    destruct (is_not t) eqn:Ea.
    + rewrite ParserFacts.bind_run, (ParserFacts.previous_stepped p t E).
      rewrite ParserFacts.bind_run.
      specialize (IH (stepped p)). cbv zeta in IH.
      rewrite IH by (simpl; lia). unfold ret.
      rewrite (is_not_value t Ea), moved_stepped. simpl nots. simpl position.
      simpl tokens. rewrite <- Nat.add_succ_comm. reflexivity.
    + rewrite ParserFacts.bind_run, (ParserFacts.advance_next p t E).
      unfold ret. simpl nots. rewrite Nat.add_0_r.
      apply Nat.ltb_lt in Hlt. rewrite Hlt. simpl. f_equal.
      unfold moved, stepped. f_equal. lia.
  - pose proof (ParserFacts.next_none_le p E) as Hle.
    rewrite Nat.add_0_r.
    destruct (ParserFacts.advance_run p Hpos) as [t Ht].
    rewrite E in Ht. rewrite ParserFacts.bind_run, Ht. unfold ret. simpl nots.
    apply Nat.ltb_ge in Hle. rewrite Hle. simpl. rewrite moved_0. reflexivity.
Qed.

(** C4, witness: the condition [!!x] of an [if], with the cursor on the
    first [!]. *)
Lemma parseExpression_not_prefix_witness :
  let toks := [Keyword "if" 1; Punctuation "(" 1; Operator "!" 1;
               Operator "!" 1; Identifier "x" 1; Punctuation ")" 1] in
  parseExpression 3 (mkState toks 2 ["("%char] [1%Z])
  = Return (Some (UnaryOperationNode "!"
                    (Some (UnaryOperationNode "!" None))))
      (mkState toks 5 ["("%char] [1%Z]).
Proof.
  exact (parseExpression_not_prefix 3
           (mkState [Keyword "if" 1; Punctuation "(" 1; Operator "!" 1;
                     Operator "!" 1; Identifier "x" 1; Punctuation ")" 1]
              2 ["("%char] [1%Z])
           (conj (le_S 1 1 (le_n 1))
              (le_S 2 5 (le_S 2 4 (le_S 2 3 (le_S 2 2 (le_n 2))))))
           (le_n 3)).
Defined.

(** C4, counterexample. In the source [if (!x) { }] the expression begins
    with the character [!]; the tokenizer makes it an [Unknown] token, so
    [parseExpression] consumes it like any other token and returns
    [nullptr], no [UnaryOperationNode], and the parse fails at [x]. And in
    the source [if (] the expression position is the end of the tokens:
    [parseExpression] returns [nullptr] there without consuming a token. *)
Lemma bang_in_source_builds_no_unary :
  let toks := [Keyword "if" 1; Punctuation "(" 1; Unknown "!" 1;
               Identifier "x" 1; Punctuation ")" 1; Punctuation "{" 1;
               Punctuation "}" 1] in
  let cut := [Keyword "if" 1; Punctuation "(" 1] in
  Lexer.tokenize "if (!x) { }" = Some toks
  /\ parseExpression 7 (mkState toks 2 ["("%char] [1%Z])
     = Return None (mkState toks 3 ["("%char] [1%Z])
  /\ parse toks
     = Throw "Expected ')' after condition in 'if' statement at line 1"
         (mkState toks 3 ["("%char] [1%Z])
  /\ Lexer.tokenize "if (" = Some cut
  /\ parseExpression 3 (mkState cut 2 ["("%char] [1%Z])
     = Return None (mkState cut 2 ["("%char] [1%Z]).
Proof. repeat split; reflexivity. Qed.

(** C5. For every source the tokenizer returns its tokens, and each token,
    taken with the offset [pos] of the match it was built from, (1) reports
    line 1 plus the number of line feeds among the first [pos] characters of
    the source, (2) has as its text the characters of the source from [pos]
    on, so [pos] is the offset of its first character; and (3) the line
    numbers never decrease along the token sequence. *)
Theorem tokenize_line_exact (source : string) :
  exists placed_tokens,
    Lexer.tokenize_at source = Some placed_tokens
    /\ Lexer.tokenize source = Some (map snd placed_tokens)
    /\ Forall (placed 1 (list_ascii_of_string source)) placed_tokens
    /\ StronglySorted Z.le (map line (map snd placed_tokens)).
Proof.
  unfold Lexer.tokenize, Lexer.tokenize_at, Regex.sregex_iterator.
  destruct (RegexFacts.matches_fuel
              (S (List.length (list_ascii_of_string source))) 0
              (list_ascii_of_string source)) as [ms Hms]; [lia|].
  rewrite Hms. simpl. eexists. split; [reflexivity|]. split; [reflexivity|].
  split.
  - apply (LexerFacts.scan_placed 1 _ [] (list_ascii_of_string source) ms
             Lexer.init Hms).
    reflexivity.
  - rewrite map_map. apply LexerFacts.scan_sorted.
Qed.

(** C6. For the source [int a] followed by a line feed the parser reaches
    the end of the two tokens while it looks for the semicolon; the message
    of the exception is built from [peek().line], which reads [tokens[2]]
    of a vector of two tokens, so no message citing line 1 is guaranteed. *)
Theorem missing_semicolon_reads_past_end :
  let toks := [Keyword "int" 1; Identifier "a" 1] in
  Lexer.tokenize ("int a" ++ nl)%string = Some toks
  /\ parse_source ("int a" ++ nl)%string
     = Some (Undefined (ReadPastEnd 2) (mkState toks 2 [] [])).
Proof. repeat split; reflexivity. Qed.

(** C7. For the source [while (x) {] followed by a line feed the loop over
    the body calls [parseStatement] at the end of the tokens, whose
    unexpected-token branch reads [tokens[5]] of a vector of five tokens;
    the brace and its line are still on the stacks, and the check for
    mismatched brackets in [parseProgram] is never reached. *)
Theorem unclosed_brace_reads_past_end :
  let toks := [Keyword "while" 1; Punctuation "(" 1; Identifier "x" 1;
               Punctuation ")" 1; Punctuation "{" 1] in
  Lexer.tokenize ("while (x) {" ++ nl)%string = Some toks
  /\ parse_source ("while (x) {" ++ nl)%string
     = Some (Undefined (ReadPastEnd 5) (mkState toks 5 ["{"%char] [1%Z])).
Proof. repeat split; reflexivity. Qed.

(** C8. From a state whose two stacks have the same height, a statement
    ends with stacks of the same height however it ends, and on a normal
    return both stacks are exactly as they were; a whole parse never runs
    out of fuel, ends with stacks of the same height, and when it returns
    both stacks are empty. *)
Theorem bracket_tracker_paired (toks : list Token) :
  (forall p : State,
     tokens p = toks -> position p <= List.length toks ->
     List.length (bracketStack p) = List.length (lineStack p) ->
     match parseStatement (S (List.length toks)) p with
     | Return _ p' =>
         bracketStack p' = bracketStack p /\ lineStack p' = lineStack p
     | Throw _ p' | Undefined _ p' =>
         List.length (bracketStack p') = List.length (lineStack p')
     | OutOfFuel => False
     end)
  /\ match parse toks with
     | Return _ p' => bracketStack p' = [] /\ lineStack p' = []
     | Throw _ p' | Undefined _ p' =>
         List.length (bracketStack p') = List.length (lineStack p')
     | OutOfFuel => False
     end.
Proof.
  split.
  - intros p Ht Hpos Hlen.
    assert (Hs : sat toks (parseStatement (S (List.length toks))) p
                   (fun _ p' => good toks (bracketStack p) (lineStack p)
                                  (S (position p)) p')).
    { apply ParserFacts.sat_parseStatement with (lo := 0);
        [unfold good; repeat split; auto; lia|assumption
        |unfold remaining; lia]. }
    unfold sat in Hs.
    destruct (parseStatement (S (List.length toks)) p) as [[] p'|w p'|u p'|].
    + destruct Hs as (_ & ? & ? & _). auto.
    + destruct Hs as (_ & ?). assumption.
    + destruct Hs as ((_ & ?) & _). assumption.
    + exact Hs.
  - pose proof (ParserFacts.sat_parse toks) as Hs.
    unfold sat, parse, parse_with in *.
    destruct (parseProgram (S (List.length toks)) (init toks))
      as [a p'|w p'|u p'|].
    + destruct Hs as (_ & _ & Hb & Hl & _). auto.
    + destruct Hs as (_ & ?). assumption.
    + destruct Hs as ((_ & ?) & _). assumption.
    + exact Hs.
Qed.

(** C9. The tokenizer returns a token sequence for every source, the empty
    source gives no token and the source [@] gives one [Unknown] token on
    line 1; but a carriage return, which none of the groups 1 to 7 matches,
    does not become an [Unknown] token: group 8 refuses it too, the search
    steps over it, and no token is produced for it. *)
Theorem carriage_return_yields_no_token :
  (forall source, exists toks, Lexer.tokenize source = Some toks)
  /\ Lexer.tokenize EmptyString = Some []
  /\ Lexer.tokenize "@" = Some [Unknown "@" 1]
  /\ Regex.match_here [CR] = None
  /\ Lexer.tokenize (String CR EmptyString) = Some []
  /\ Lexer.tokenize ("a" ++ String CR "b")%string
     = Some [Identifier "a" 1; Identifier "b" 1].
Proof.
  split; [exact LexerFacts.tokenize_total|].
  repeat split; reflexivity.
Qed.

(** C10. The reads made through [match] and [previous] are in bounds, and
    the only undefined operation a parse can reach is the read of
    [tokens[tokens.size()]]; but that read is reached: both the missing
    semicolon branch and the unexpected-token branch call [peek] with the
    cursor at the end of the tokens. *)
Theorem error_paths_read_past_end :
  (forall toks, match parse toks with
                | Undefined u _ => u = ReadPastEnd (List.length toks)
                | _ => True
                end)
  /\ parse [Keyword "int" 7; Identifier "a" 7]
     = Undefined (ReadPastEnd 2)
         (mkState [Keyword "int" 7; Identifier "a" 7] 2 [] [])
  /\ parse [Keyword "if" 3; Punctuation "(" 3; Identifier "x" 3;
            Punctuation ")" 3; Punctuation "{" 4; Keyword "int" 5;
            Identifier "a" 5; Punctuation ";" 5]
     = Undefined (ReadPastEnd 8)
         (mkState [Keyword "if" 3; Punctuation "(" 3; Identifier "x" 3;
                   Punctuation ")" 3; Punctuation "{" 4; Keyword "int" 5;
                   Identifier "a" 5; Punctuation ";" 5] 8 ["{"%char] [4%Z]).
Proof.
  split; [|repeat split; reflexivity].
  intros toks. pose proof (ParserFacts.sat_parse toks) as Hs.
  unfold sat, parse, parse_with in *.
  destruct (parseProgram (S (List.length toks)) (init toks)); auto.
  destruct Hs as [_ ?]. assumption.
Qed.

(** * Further properties of the tokenizer *)
Module TokenFacts.

Import Regex Lexer TokenSpec RegexFacts.

(** The loop follows the relation [scans]. *)
Lemma matches_scans fuel : forall pos s ms st,
  matches_from fuel pos s = Some ms -> scans pos s st (scan ms st).
Proof.
  induction fuel as [|fuel IH]; intros pos s ms st; simpl; [discriminate|].
  destruct (regex_search s) as [[[k g] len]|] eqn:E.
  - apply regex_search_some in E as (Hm & Hcr & Hlen).
    destruct (matches_from fuel _ _) as [ms'|] eqn:Erest; [|discriminate].
    simpl. intros [= <-]. simpl scan.
    set (lexeme := firstn len (skipn k s)).
    assert (Hl : List.length lexeme = len).
    { unfold lexeme. rewrite length_firstn, length_skipn. lia. }
    assert (Hs : s = repeat CR k ++ lexeme ++ skipn (k + len) s).
    { rewrite <- Hcr. unfold lexeme.
      rewrite <- (firstn_skipn k s) at 1. f_equal.
      rewrite <- (firstn_skipn len (skipn k s)) at 1. f_equal.
      rewrite skipn_skipn. f_equal. lia. }
    pose proof (scans_match pos s k g lexeme (skipn (k + len) s) st
                  (scan ms' (snd (body (mkMatch g (pos + k)
                                          (string_of_list_ascii lexeme)) st)))
                  Hs) as Hstep.
    destruct (body (mkMatch g (pos + k) (string_of_list_ascii lexeme)) st)
      as [e st'] eqn:Eb.
    simpl in Hstep. apply Hstep.
    + assert (Hsk : lexeme ++ skipn (k + len) s = skipn k s).
      { unfold lexeme. rewrite (Nat.add_comm k len), <- skipn_skipn.
        apply firstn_skipn. }
      rewrite Hsk, Hl. exact Hm.
    + apply IH. rewrite Hl. exact Erest.
  - intros [= <-]. simpl. rewrite (regex_search_none s E). constructor.
Qed.

Lemma tokenize_at_scans (source : string) :
  exists pts,
    tokenize_at source = Some pts
    /\ scans 0 (list_ascii_of_string source) init pts.
Proof.
  unfold tokenize_at, sregex_iterator.
  destruct (matches_fuel (S (List.length (list_ascii_of_string source))) 0
              (list_ascii_of_string source)) as [ms Hms]; [lia|].
  rewrite Hms. simpl. eexists. split; [reflexivity|].
  apply matches_scans with (fuel := S (List.length
                                         (list_ascii_of_string source))).
  exact Hms.
Qed.

(** ** A match is the match of its own text *)

Lemma starts_with_app w l r :
  starts_with w l = true -> starts_with w (l ++ r) = true.
Proof.
  revert l. induction w as [|a w IH]; intros [|c l] H; simpl in *;
    try reflexivity; try discriminate.
  apply andb_prop in H as [-> H]. simpl. auto.
Qed.

Lemma starts_with_short w l r :
  starts_with w (l ++ r) = true -> List.length w <= List.length l ->
  starts_with w l = true.
Proof.
  revert l. induction w as [|a w IH]; intros [|c l] H Hlen; simpl in *;
    try reflexivity; try lia.
  apply andb_prop in H as [-> H]. simpl. apply IH; [exact H|lia].
Qed.

Lemma first_word_stable words : stable (first_word words).
Proof.
  intros l r. induction words as [|w words [IHs IHn]]; simpl; [auto|].
  destruct (starts_with (list_ascii_of_string w) (l ++ r)) eqn:E.
  - split; [|discriminate]. intros [= Hlen].
    rewrite (starts_with_short _ l r E)
      by (rewrite length_list_ascii_of_string; lia).
    congruence.
  - destruct (starts_with (list_ascii_of_string w) l) eqn:El;
      [apply (starts_with_app _ _ r) in El; congruence|].
    split; assumption.
Qed.

Lemma span_own p l r :
  span p (l ++ r) = List.length l -> span p l = List.length l.
Proof.
  induction l as [|c l IH]; simpl; [reflexivity|].
  destruct (p c); [|discriminate]. intros [= H]. f_equal. auto.
Qed.

Lemma span_full p l : span p l = List.length l -> forallb p l = true.
Proof.
  induction l as [|c l IH]; simpl; [reflexivity|].
  destruct (p c); [|discriminate]. intros [= H]. simpl. auto.
Qed.

Lemma group2_stable : stable group2.
Proof.
  intros [|c l] r; simpl.
  - split; [|reflexivity]. destruct r as [|c r]; simpl; [discriminate|].
    destruct (ident_start c); discriminate.
  - destruct (ident_start c); [|split; auto; discriminate].
    split; [|discriminate]. intros [= H]. rewrite (span_own _ _ _ H).
    reflexivity.
Qed.

Lemma lazy_to_quote_stable : stable lazy_to_quote.
Proof.
  intros l r. induction l as [|c l [IHs IHn]]; simpl.
  - split; [|reflexivity]. intros H.
    apply lazy_to_quote_plain in H as [[? _] _]. lia.
  - destruct (Ascii.eqb c DQUOTE).
    + split; [|discriminate]. intros [= H]. exact (f_equal Some (f_equal S H)).
    + destruct (any_char c); [|split; auto; discriminate].
      destruct (lazy_to_quote (l ++ r)) as [n|] eqn:E; simpl.
      * split; [|discriminate]. intros [= ->]. rewrite (IHs eq_refl).
        reflexivity.
      * split; [discriminate|]. intros _. rewrite (IHn eq_refl). reflexivity.
Qed.

Lemma group3_stable : stable group3.
Proof.
  intros [|c l] r; simpl.
  - split; [|reflexivity]. destruct r as [|c r]; simpl; [discriminate|].
    destruct (Ascii.eqb c DQUOTE); [|discriminate].
    destruct (lazy_to_quote r); discriminate.
  - destruct (Ascii.eqb c DQUOTE); [|split; auto; discriminate].
    destruct (lazy_to_quote_stable l r) as [Hs Hn].
    destruct (lazy_to_quote (l ++ r)) as [n|] eqn:E; simpl.
    + split; [|discriminate]. intros [= ->]. rewrite (Hs eq_refl).
      reflexivity.
    + split; [discriminate|]. intros _. rewrite (Hn eq_refl). reflexivity.
Qed.

Lemma one_char_stable p : stable (one_char p).
Proof.
  intros [|c l] r; simpl.
  - split; [|reflexivity]. destruct r as [|c r]; simpl; [discriminate|].
    destruct (p c); discriminate.
  - destruct (p c); split; auto; discriminate.
Qed.

Lemma group6_stable : stable group6.
Proof.
  intros l r. unfold group6. split.
  - destruct (span blank_char (l ++ r)) as [|n] eqn:E; [discriminate|].
    intros [= H]. rewrite H in E. rewrite (span_own _ _ _ E), <- H.
    reflexivity.
  - destruct l as [|c l]; [reflexivity|]. simpl.
    destruct (blank_char c); [discriminate|reflexivity].
Qed.

Lemma groups_stable : Forall stable groups.
Proof.
  repeat constructor;
    first [apply first_word_stable | apply group2_stable
          | apply group3_stable | apply one_char_stable
          | apply group6_stable].
Qed.

Lemma first_group_own gs : Forall stable gs -> forall k l r g,
  first_group k gs (l ++ r) = Some (g, List.length l) ->
  first_group k gs l = Some (g, List.length l).
Proof.
  induction 1 as [|f gs Hf _ IH]; intros k l r g; simpl; [discriminate|].
  destruct (Hf l r) as [Hs Hn].
  destruct (f (l ++ r)) as [n|] eqn:E.
  - intros [= <- ->]. rewrite (Hs eq_refl). reflexivity.
  - rewrite (Hn eq_refl). apply IH.
Qed.

(** A match of the pattern is also the match of its own text taken
    alone. *)
Lemma match_here_own l r g :
  match_here (l ++ r) = Some (g, List.length l) ->
  match_here l = Some (g, List.length l).
Proof. apply first_group_own, groups_stable. Qed.

(** The token of a match, when the loop pushes one. *)
Lemma body_token g pos text st t :
  1 <= g <= 8 ->
  fst (body (mkMatch g pos text) st) = Some t ->
  type_group (type t) = g /\ value t = text /\ line t = cur_line st.
Proof.
  intros Hg. unfold body. simpl group. simpl str.
  destruct g as [|[|[|[|[|[|[|[|[|]]]]]]]]]; try lia; simpl;
    intros [= <-]; simpl; auto.
Qed.

Lemma body_silent g pos text st :
  1 <= g <= 8 ->
  fst (body (mkMatch g pos text) st) = None -> g = 6 \/ g = 7.
Proof.
  intros Hg. unfold body. simpl group.
  destruct g as [|[|[|[|[|[|[|[|[|]]]]]]]]]; try lia; simpl;
    try discriminate; auto.
Qed.

(** ** What holds of every token *)

Lemma scans_own pos s st pts :
  scans pos s st pts ->
  Forall (fun pt =>
            match_here (list_ascii_of_string (value (snd pt)))
            = Some (type_group (type (snd pt)),
                    String.length (value (snd pt)))) pts.
Proof.
  induction 1 as [|pos s k g lexeme rest st pts Hs Hm _ IH]; [constructor|].
  destruct (fst (body _ st)) as [t|] eqn:Eb; [|exact IH].
  constructor; [|exact IH]. simpl snd.
  pose proof (match_here_some _ _ _ Hm) as (Hg & _ & _).
  apply body_token in Eb as (-> & -> & _); [|exact Hg].
  rewrite list_ascii_of_string_of_list_ascii.
  rewrite <- length_list_ascii_of_string.
  rewrite list_ascii_of_string_of_list_ascii.
  eapply match_here_own. exact Hm.
Qed.

Lemma scans_sorted pos s st pts :
  scans pos s st pts ->
  Forall (fun pt => pos <= fst pt) pts
  /\ StronglySorted (fun a b => token_end a <= fst b) pts.
Proof.
  induction 1 as [|pos s k g lexeme rest st pts Hs Hm _ [IHlo IHs]];
    [split; constructor|].
  assert (Hlo : Forall (fun pt => pos <= fst pt) pts)
    by (eapply Forall_impl; [|exact IHlo]; simpl; intros; lia).
  destruct (fst (body _ st)) as [t|] eqn:Eb; [|split; assumption].
  pose proof (match_here_some _ _ _ Hm) as (Hg & _ & _).
  apply body_token in Eb as (_ & Hv & _); [|exact Hg].
  split.
  - constructor; [simpl; lia|exact Hlo].
  - constructor; [exact IHs|].
    eapply Forall_impl; [|exact IHlo]. intros pt Hpt.
    unfold token_end. simpl. rewrite Hv.
    rewrite <- length_list_ascii_of_string.
    rewrite list_ascii_of_string_of_list_ascii. exact Hpt.
Qed.

Lemma existsb_cons_r {A} (f : A -> bool) a l :
  existsb f l = true -> existsb f (a :: l) = true.
Proof. simpl. intros ->. apply orb_true_r. Qed.

Lemma scans_cover pos s st pts :
  scans pos s st pts ->
  forall i c, nth_error s i = Some c ->
    existsb (covers (pos + i)) pts = true \/ dropped_char c = true.
Proof.
  induction 1 as [pos k st|pos s k g lexeme rest st pts Hs Hm _ IH];
    intros i c Hi.
  - right. apply nth_error_In, repeat_spec in Hi. subst c. reflexivity.
  - subst s. pose proof (match_here_some _ _ _ Hm) as (Hg & _ & Hlf).
    destruct (Nat.lt_ge_cases i k) as [Hik|Hik].
    { right. rewrite nth_error_app1 in Hi by (rewrite repeat_length; lia).
      apply nth_error_In, repeat_spec in Hi. subst c. reflexivity. }
    rewrite nth_error_app2 in Hi by (rewrite repeat_length; lia).
    rewrite repeat_length in Hi.
    destruct (Nat.lt_ge_cases (i - k) (List.length lexeme)) as [Hil|Hil].
    + rewrite nth_error_app1 in Hi by exact Hil.
      destruct (fst (body _ st)) as [t|] eqn:Eb.
      * left. apply body_token in Eb as (_ & Hv & _); [|exact Hg].
        simpl. unfold covers at 1, token_end. simpl. rewrite Hv.
        rewrite <- length_list_ascii_of_string.
        rewrite list_ascii_of_string_of_list_ascii.
        replace (Nat.leb (pos + k) (pos + i)) with true
          by (symmetry; apply Nat.leb_le; lia).
        replace (Nat.ltb (pos + i) (pos + k + List.length lexeme)) with true
          by (symmetry; apply Nat.ltb_lt; lia).
        reflexivity.
      * right. destruct (body_silent _ _ _ _ Hg Eb) as [-> | ->].
        -- apply match_here_own in Hm. unfold match_here, groups in Hm.
           simpl in Hm.
           destruct (group1 lexeme); [discriminate|].
           destruct (group2 lexeme); [discriminate|].
           destruct (group3 lexeme); [discriminate|].
           destruct (group4 lexeme); [discriminate|].
           destruct (group5 lexeme); [discriminate|].
           unfold group6 in Hm.
           destruct (span blank_char lexeme) as [|n] eqn:E; [|clear Hg].
           { destruct (group7 lexeme); [discriminate|].
             destruct (group8 lexeme); discriminate. }
           injection Hm as Hn. rewrite Hn in E. apply span_full in E.
           apply nth_error_In in Hi. rewrite forallb_forall in E.
           unfold dropped_char. rewrite (E c Hi). reflexivity.
        -- simpl in Hlf. rewrite firstn_app, firstn_all, Nat.sub_diag in Hlf.
           simpl in Hlf. rewrite app_nil_r in Hlf. rewrite Hlf in Hi.
           apply nth_error_In in Hi. destruct Hi as [<-|[]]. reflexivity.
    + rewrite nth_error_app2 in Hi by exact Hil.
      destruct (IH _ _ Hi) as [Hc|Hd]; [left|right; exact Hd].
      replace (pos + k + List.length lexeme + (i - k - List.length lexeme))
        with (pos + i) in Hc by lia.
      destruct (fst (body _ st)); [apply existsb_cons_r|]; exact Hc.
Qed.

(** ** From a text matched whole to its token *)







(** A text the pattern matches whole with the group of [ty] is tokenized
    into the one token of type [ty] with that text, on line 1. *)
Lemma tokenize_whole ty l :
  match_here l = Some (type_group ty, List.length l) ->
  tokenize (string_of_list_ascii l)
  = Some [mkToken ty (string_of_list_ascii l) 1].
Proof.
  intros Hm. pose proof (match_here_some _ _ _ Hm) as (_ & [Hpos _] & _).
  unfold tokenize, tokenize_at, sregex_iterator.
  rewrite list_ascii_of_string_of_list_ascii.
  destruct l as [|c l]; [simpl in Hpos; lia|].
  cbn [matches_from regex_search]. rewrite Hm.
  cbn [Nat.add skipn List.length firstn]. rewrite skipn_all, firstn_all.
  cbn [matches_from regex_search]. 
  replace (match_here []) with (@None (nat * nat)) by reflexivity.
  cbn [option_map scan].
  destruct ty; reflexivity.
Qed.

End TokenFacts.

(** Re-tokenizing the text of any token gives that one token back, on line
    1: each token is matched whole by the group of its own kind, and by no
    earlier group. *)
Theorem token_text_retokenizes (source : string) :
  exists toks,
    Lexer.tokenize source = Some toks
    /\ Forall (fun t => Lexer.tokenize (value t)
                        = Some [mkToken (type t) (value t) 1]) toks.
Proof.
  unfold Lexer.tokenize at 1.
  destruct (TokenFacts.tokenize_at_scans source) as (pts & -> & Hs).
  cbn [option_map]. eexists. split; [reflexivity|].
  rewrite Forall_map. apply TokenFacts.scans_own in Hs.
  eapply Forall_impl; [|exact Hs]. intros [pos t] Hm. cbn [snd] in *.
  rewrite <- RegexFacts.length_list_ascii_of_string in Hm.
  apply TokenFacts.tokenize_whole in Hm.
  rewrite string_of_list_ascii_of_string in Hm. exact Hm.
Qed.


(** Tokens come in source order and do not overlap: each token is at least
    one character long, lies inside the source, and ends before the next
    one starts. *)
Theorem tokens_in_source_order (source : string) :
  exists pts,
    Lexer.tokenize_at source = Some pts
    /\ StronglySorted (fun a b => TokenSpec.token_end a <= fst b) pts
    /\ Forall (fun pt => fst pt < TokenSpec.token_end pt
                         /\ TokenSpec.token_end pt <= String.length source)
         pts.
Proof.
  destruct (TokenFacts.tokenize_at_scans source) as (pts & Hpts & Hs).
  exists pts. split; [exact Hpts|].
  split; [apply (TokenFacts.scans_sorted _ _ _ _ Hs)|].
  destruct (LexerFacts.tokenize_at_placed source) as (pts' & Hpts' & Hpl).
  rewrite Hpts in Hpts'. injection Hpts' as <-.
  apply TokenFacts.scans_own in Hs.
  rewrite Forall_forall in *. intros [pos t] Hin.
  specialize (Hs _ Hin). specialize (Hpl _ Hin). cbn [snd] in Hs.
  destruct Hpl as (_ & Htext & Hlt).
  apply RegexFacts.match_here_some in Hs as (_ & [Hpos _] & _).
  unfold TokenSpec.token_end. cbn [fst snd]. split; [lia|].
  apply (f_equal (@List.length ascii)) in Htext.
  rewrite RegexFacts.length_list_ascii_of_string in Htext.
  rewrite length_firstn, length_skipn in Htext.
  rewrite RegexFacts.length_list_ascii_of_string in Htext. lia.
Qed.

(** The tokenizer drops nothing but blanks, line feeds and carriage
    returns: every other character of the source lies inside a token. *)
Theorem only_blanks_are_dropped (source : string) :
  exists pts,
    Lexer.tokenize_at source = Some pts
    /\ forall i c,
         nth_error (list_ascii_of_string source) i = Some c ->
         existsb (TokenSpec.covers i) pts = true
         \/ TokenSpec.dropped_char c = true.
Proof.
  destruct (TokenFacts.tokenize_at_scans source) as (pts & Hpts & Hs).
  exists pts. split; [exact Hpts|]. intros i c Hi.
  exact (TokenFacts.scans_cover _ _ _ _ Hs i c Hi).
Qed.

(** * Exceptions of the parser *)
Module ErrorFacts.

Import Parser ParserSpec ErrorSpec.

Lemma append_assoc (a b c : string) :
  ((a ++ b) ++ c = a ++ (b ++ c))%string.
Proof. induction a as [|x a IH]; simpl; [reflexivity|]. now rewrite IH. Qed.

Lemma prefix_append (a w x : string) :
  String.prefix a w = true -> String.prefix a (w ++ x) = true.
Proof.
  revert w. induction a as [|c a IH]; intros [|d w]; simpl;
    try discriminate.
  - intros _. destruct x; reflexivity.
  - reflexivity.
  - destruct (ascii_dec c d); [apply IH|discriminate].
Qed.

Lemma throws_only_ret {A} P (a : A) : throws_only P (ret a).
Proof. intros p what p' H. discriminate H. Qed.

Lemma throws_only_bind {A B} P (m : M A) (k : A -> M B) :
  throws_only P m -> (forall a, throws_only P (k a)) ->
  throws_only P (bind m k).
Proof.
  intros Hm Hk p what p'. rewrite ParserFacts.bind_run.
  destruct (m p) as [a p1|w p1|u p1|] eqn:E; try discriminate.
  - apply Hk.
  - intros [= <- <-]. eapply Hm. exact E.
Qed.

Lemma throws_only_if {A} P (b : bool) (m1 m2 : M A) :
  throws_only P m1 -> throws_only P m2 ->
  throws_only P (if b then m1 else m2).
Proof. destruct b; auto. Qed.

Lemma match_never_throws P ty v : throws_only P (match_ ty v).
Proof.
  intros p what p'. rewrite ParserFacts.match_run.
  destruct (next p) as [t|]; [destruct (accepts ty v t)|]; discriminate.
Qed.

Lemma previous_never_throws P : throws_only P previous.
Proof.
  intros p what p'. unfold previous.
  destruct (position p); [discriminate|].
  destruct (nth_error _ _); discriminate.
Qed.

Lemma peek_never_throws P : throws_only P peek.
Proof.
  intros p what p'. rewrite ParserFacts.peek_run.
  destruct (next p); discriminate.
Qed.

Lemma isAtEnd_never_throws P : throws_only P isAtEnd.
Proof. intros p what p'. rewrite ParserFacts.isAtEnd_run. discriminate. Qed.

Lemma advance_never_throws P : throws_only P advance.
Proof.
  unfold advance. apply throws_only_bind; [apply isAtEnd_never_throws|].
  intros b. apply throws_only_if; [apply previous_never_throws|].
  apply throws_only_bind; [|intros _; apply previous_never_throws].
  intros p what p' H. discriminate H.
Qed.

Lemma open_bracket_never_throws P c : throws_only P (open_bracket c).
Proof.
  unfold open_bracket.
  apply throws_only_bind; [intros p what p' H; discriminate H|]. intros _.
  apply throws_only_bind; [apply previous_never_throws|]. intros t.
  intros p what p' H. discriminate H.
Qed.

Lemma close_bracket_never_throws P : throws_only P close_bracket.
Proof.
  unfold close_bracket.
  apply throws_only_bind; [|intros _]; intros p what p';
    unfold bracketStack_pop, lineStack_pop;
    [destruct (bracketStack p)|destruct (lineStack p)]; discriminate.
Qed.

(** A message that ends in [at line], completed with the line of the token
    under the cursor. *)
Lemma throw_at_line_stops {A} (what : string) :
  names_expectation what ->
  (exists before, what = before ++ "at line ")%string ->
  throws_only stopped_at (@throw_at_line A what).
Proof.
  intros Hkind [before Hb] p w p'. unfold throw_at_line.
  rewrite ParserFacts.bind_run, ParserFacts.peek_run.
  destruct (next p) as [t|] eqn:E; [|discriminate].
  intros [= <- <-]. split.
  - destruct Hkind as [H|H]; [left|right]; apply prefix_append; exact H.
  - exists t. split; [exact E|]. exists before. rewrite Hb.
    apply append_assoc.
Qed.

(** Splits a literal message before its last eight characters. *)
Ltac message :=
  first
    [ left; reflexivity
    | right; reflexivity
    | match goal with
      | |- exists before, ?w = _ =>
          exists (substring 0 (String.length w - 8) w); reflexivity
      end ].

Lemma expect_stops ty v what :
  names_expectation what ->
  (exists before, what = before ++ "at line ")%string ->
  throws_only stopped_at (expect ty v what).
Proof.
  intros Hk Hb. unfold expect.
  apply throws_only_bind; [apply match_never_throws|]. intros b.
  apply throws_only_if; [apply throws_only_ret|].
  apply throw_at_line_stops; assumption.
Qed.

(** One call of the body of a parse function. *)
Ltac stops :=
  repeat first
    [ apply throws_only_ret
    | apply match_never_throws
    | apply previous_never_throws
    | apply advance_never_throws
    | apply open_bracket_never_throws
    | apply close_bracket_never_throws
    | apply expect_stops; message
    | apply throw_at_line_stops; message
    | apply throws_only_if
    | apply throws_only_bind; [|intros ?] ].

Lemma declarators_stops fuel : forall identifiers,
  throws_only stopped_at (declarators fuel identifiers).
Proof.
  induction fuel as [|fuel IH]; intros ids; simpl;
    [intros p what p' H; discriminate H|].
  stops. apply IH.
Qed.

Lemma parseVariableDeclaration_stops fuel :
  throws_only stopped_at (parseVariableDeclaration fuel).
Proof. unfold parseVariableDeclaration. stops. apply declarators_stops. Qed.

Lemma parseFileDeclaration_stops : throws_only stopped_at parseFileDeclaration.
Proof. unfold parseFileDeclaration. stops. Qed.

Lemma parseFileOperation_stops : throws_only stopped_at parseFileOperation.
Proof. unfold parseFileOperation. stops. Qed.

Lemma parseExpression_never_throws P fuel :
  throws_only P (parseExpression fuel).
Proof.
  induction fuel as [|fuel IH]; simpl; [intros p what p' H; discriminate H|].
  apply throws_only_bind; [apply match_never_throws|]. intros b.
  apply throws_only_if.
  - apply throws_only_bind; [apply previous_never_throws|]. intros t.
    apply throws_only_bind; [exact IH|]. intros r. apply throws_only_ret.
  - apply throws_only_bind; [apply advance_never_throws|]. intros t.
    apply throws_only_ret.
Qed.

Section CompoundErrors.

Variable stmt : M unit.
Variable fuel : nat.
Hypothesis stmt_stops : throws_only stopped_at stmt.

Lemma block_stops n : throws_only stopped_at (block stmt n).
Proof.
  induction n as [|n IH]; simpl; [intros p what p' H; discriminate H|].
  stops; assumption.
Qed.

Lemma parseIfStatement_stops :
  throws_only stopped_at (parseIfStatement stmt fuel).
Proof.
  unfold parseIfStatement. stops;
    first [apply parseExpression_never_throws | apply block_stops].
Qed.

Lemma parseWhileStatement_stops :
  throws_only stopped_at (parseWhileStatement stmt fuel).
Proof.
  unfold parseWhileStatement. stops;
    first [apply parseExpression_never_throws | apply block_stops].
Qed.

Lemma parseForStatement_stops :
  throws_only stopped_at (parseForStatement stmt fuel).
Proof.
  unfold parseForStatement. stops;
    first [apply parseExpression_never_throws | apply block_stops].
Qed.

End CompoundErrors.

Lemma dispatch_never_throws P : throws_only P dispatch.
Proof. unfold dispatch, orM. stops. Qed.

Lemma unexpected_token_stops :
  throws_only stopped_at
    (token <- peek ;;
     token' <- peek ;;
     throw ("Unexpected token: " ++ value token ++ " at line "
            ++ to_string (line token'))%string : M unit).
Proof.
  intros p what p'. rewrite ParserFacts.bind_run, ParserFacts.peek_run.
  destruct (next p) as [t|] eqn:E; [|discriminate].
  rewrite ParserFacts.bind_run, ParserFacts.peek_run, E.
  intros [= <- <-]. split; [right; reflexivity|].
  exists t. split; [exact E|].
  exists ("Unexpected token: " ++ value t ++ " ")%string.
  rewrite !append_assoc. reflexivity.
Qed.

Lemma parseStatement_stops fuel : throws_only stopped_at (parseStatement fuel).
Proof.
  induction fuel as [|fuel IH]; simpl; [intros p what p' H; discriminate H|].
  apply throws_only_bind; [apply dispatch_never_throws|].
  intros []; try apply unexpected_token_stops;
    (apply throws_only_bind; [|intros _; apply throws_only_ret]).
  - apply parseVariableDeclaration_stops.
  - apply parseFileDeclaration_stops.
  - apply parseFileOperation_stops.
  - apply parseIfStatement_stops, IH.
  - apply parseWhileStatement_stops, IH.
  - apply parseForStatement_stops, IH.
Qed.

Lemma statements_stops fuel n : throws_only stopped_at (statements fuel n).
Proof.
  induction n as [|n IH]; simpl; [intros p what p' H; discriminate H|].
  apply throws_only_bind; [apply isAtEnd_never_throws|]. intros b.
  apply throws_only_if; [apply throws_only_ret|].
  apply throws_only_bind; [apply parseStatement_stops|]. intros _. exact IH.
Qed.

End ErrorFacts.

(** Every exception of a parse says what was expected or unexpected and
    cites the line of the token the cursor stands on when it is thrown; in
    particular the cursor is on a token then, and the exception is never
    the report of mismatched brackets. *)
Theorem parse_error_cites_cursor (toks : list Token) (what : string)
    (p : State) :
  parse toks = Throw what p ->
  ErrorSpec.names_expectation what
  /\ exists t,
       nth_error toks (position p) = Some t
       /\ ErrorSpec.cites what (line t).
Proof.
  unfold parse, parse_with, parseProgram. rewrite ParserFacts.bind_run.
  assert (Hs : sat toks
                 (statements (S (List.length toks)) (S (List.length toks)))
                 (init toks)
                 (fun _ p' => good toks [] [] (position (init toks)) p')).
  { apply ParserFacts.sat_statements with (lo := 0);
      unfold good, remaining, init; simpl; repeat split; auto; lia. }
  unfold sat in Hs.
  destruct (statements _ _ (init toks)) as [[] p1|w p1|u p1|] eqn:E;
    try discriminate.
  - destruct Hs as (_ & Hb & _). rewrite ParserFacts.bind_run.
    unfold bracketStack_empty. rewrite Hb. discriminate.
  - intros [= <- <-]. apply ErrorFacts.statements_stops in E.
    destruct E as (Hk & t & Hn & Hc). destruct Hs as [Ht _].
    split; [exact Hk|]. exists t. unfold next in Hn. rewrite Ht in Hn. auto.
Qed.

(** Witness: [int a] on line 1 and [b] on line 2, where a comma or a
    semicolon is missing. *)
Lemma parse_error_cites_cursor_witness :
  ErrorSpec.names_expectation
    "Expected ';' at the end of variable declaration at line 2"
  /\ exists t,
       nth_error [Keyword "int" 1; Identifier "a" 1; Identifier "b" 2] 2
       = Some t
       /\ ErrorSpec.cites
            "Expected ';' at the end of variable declaration at line 2"
            (line t).
Proof.
  exact (parse_error_cites_cursor
           [Keyword "int" 1; Identifier "a" 1; Identifier "b" 2]
           "Expected ';' at the end of variable declaration at line 2"
           (mkState [Keyword "int" 1; Identifier "a" 1; Identifier "b" 2]
              2 [] [])
           eq_refl).
Defined.

(** * The parser against the grammar *)
Module GrammarFacts.

Import Parser ParserSpec GrammarSpec.

(** ** Runs of the primitives *)

Lemma rest_next (p : State) :
  rest p = match next p with
           | Some t => t :: rest (stepped p)
           | None => []
           end.
Proof.
  unfold rest, next. simpl. generalize (position p) as n.
  generalize (tokens p) as l.
  induction l as [|t l IH]; intros [|n]; simpl; auto.
Qed.

Lemma rest_cons p t r : rest p = t :: r -> next p = Some t /\ rest (stepped p) = r.
Proof.
  rewrite rest_next. destruct (next p); [|discriminate].
  intros [= -> ->]. auto.
Qed.

Lemma rest_nil p : rest p = [] -> next p = None.
Proof. rewrite rest_next. destruct (next p); [discriminate|reflexivity]. Qed.

Lemma after_stepped p t : next p = Some t -> after [t] p (stepped p).
Proof.
  intros H. unfold after, reaches. simpl. repeat split; try lia.
  rewrite rest_next, H. reflexivity.
Qed.

Lemma expect_run ty v what p :
  expect ty v what p =
  match next p with
  | Some t => if accepts ty v t then Return tt (stepped p)
              else Throw (what ++ to_string (line t)) p
  | None => Undefined (ReadPastEnd (position p)) p
  end.
Proof.
  unfold expect. rewrite ParserFacts.bind_run, ParserFacts.match_run.
  destruct (next p) as [t|] eqn:E.
  - destruct (accepts ty v t); [reflexivity|].
    unfold throw_at_line. rewrite ParserFacts.bind_run, ParserFacts.peek_run, E.
    reflexivity.
  - unfold throw_at_line. rewrite ParserFacts.bind_run, ParserFacts.peek_run, E.
    reflexivity.
Qed.

Lemma throw_at_line_run {A} what p :
  @throw_at_line A what p =
  match next p with
  | Some t => Throw (what ++ to_string (line t)) p
  | None => Undefined (ReadPastEnd (position p)) p
  end.
Proof.
  unfold throw_at_line. rewrite ParserFacts.bind_run, ParserFacts.peek_run.
  destruct (next p); reflexivity.
Qed.

Lemma open_bracket_run c p :
  open_bracket c p =
  match position p with
  | 0 => Undefined ReadBeforeBegin
           (mkState (tokens p) (position p) (c :: bracketStack p)
              (lineStack p))
  | S i =>
      match nth_error (tokens p) i with
      | Some t =>
          Return tt (mkState (tokens p) (position p) (c :: bracketStack p)
                       (line t :: lineStack p))
      | None =>
          Undefined (ReadPastEnd i)
            (mkState (tokens p) (position p) (c :: bracketStack p)
               (lineStack p))
      end
  end.
Proof.
  unfold open_bracket, bind, bracketStack_push, previous, lineStack_push.
  simpl. destruct (position p) as [|i]; [reflexivity|].
  destruct (nth_error (tokens p) i); reflexivity.
Qed.

Lemma close_bracket_run p :
  close_bracket p =
  match bracketStack p, lineStack p with
  | [], _ => Undefined PopEmpty p
  | _ :: bs, [] =>
      Undefined PopEmpty (mkState (tokens p) (position p) bs (lineStack p))
  | _ :: bs, _ :: ls => Return tt (mkState (tokens p) (position p) bs ls)
  end.
Proof.
  unfold close_bracket, bind, bracketStack_pop, lineStack_pop.
  destruct (bracketStack p); [reflexivity|]. simpl.
  destruct (lineStack p); reflexivity.
Qed.

Lemma dispatch_run p :
  dispatch p =
  match next p with
  | None => Return ToUnexpectedToken p
  | Some t =>
      if accepts KEYWORD "int" t
      then Return ToVariableDeclaration (stepped p)
      else if file_keyword t then Return ToFileDeclaration (stepped p)
      else if accepts IDENTIFIER EmptyString t
      then Return ToFileOperation (stepped p)
      else if accepts KEYWORD "if" t then Return ToIfStatement (stepped p)
      else if accepts KEYWORD "while" t
      then Return ToWhileStatement (stepped p)
      else if accepts KEYWORD "for" t then Return ToForStatement (stepped p)
      else Return ToUnexpectedToken p
  end.
Proof.
  unfold dispatch, orM, file_keyword. destruct (next p) as [t|] eqn:E.
  - repeat (rewrite ?ParserFacts.bind_run;
            rewrite ParserFacts.match_run, E;
            match goal with
            | |- context [accepts ?ty ?v t] =>
                destruct (accepts ty v t) eqn:?
            end;
            unfold ret; cbv beta iota; simpl orb; try reflexivity).
  - repeat (rewrite ?ParserFacts.bind_run;
            rewrite ParserFacts.match_run, E; unfold ret; cbv beta iota).
    reflexivity.
Qed.

(** ** Moves of the cursor *)

Lemma after_refl p : after [] p p.
Proof. unfold after, reaches. simpl. repeat split; lia. Qed.

(** Rewrites the goal along the equations that say what each step has
    consumed. *)
Ltac chase :=
  repeat match goal with
         | H : rest ?a = _ |- _ => rewrite H; clear H
         end;
  repeat (progress (simpl; rewrite <- ?app_assoc));
  reflexivity.

(** Composes the moves in the context into the move of the goal. *)
Ltac chain :=
  unfold after, reaches in *; simpl in *;
  repeat match goal with
         | H : _ /\ _ |- _ => destruct H
         end;
  repeat split;
  [ congruence
  | repeat (rewrite length_app in * || rewrite length_cons in *);
    simpl in *; lia
  | chase
  | congruence
  | congruence ].

(** ** What a returning parser has consumed *)

Lemma ensures_bind {A B} (m : M A) (k : A -> M B) p
    (Q : A -> State -> Prop) (R : B -> State -> Prop) :
  ensures m p Q ->
  (forall a p1, Q a p1 -> ensures (k a) p1 R) ->
  ensures (bind m k) p R.
Proof.
  intros Hm Hk b p' E. rewrite ParserFacts.bind_run in E.
  destruct (m p) as [a p1| | |] eqn:Em; try discriminate.
  exact (Hk a p1 (Hm a p1 Em) b p' E).
Qed.

Lemma ensures_mono {A} (m : M A) p (Q R : A -> State -> Prop) :
  ensures m p Q -> (forall a p', Q a p' -> R a p') -> ensures m p R.
Proof. intros Hm HQ a p' E. apply HQ, Hm, E. Qed.

Lemma ensures_ret {A} (a : A) p :
  ensures (ret a) p (fun _ p' => p' = p).
Proof. intros a' p' [= _ <-]. reflexivity. Qed.

Lemma ensures_throw_at_line {A} what p (Q : A -> State -> Prop) :
  ensures (throw_at_line what) p Q.
Proof.
  intros a p'. rewrite throw_at_line_run. destruct (next p); discriminate.
Qed.

Lemma ensures_previous p : ensures previous p (fun _ p' => p' = p).
Proof.
  intros t p'. unfold previous. destruct (position p) as [|i]; [discriminate|].
  destruct (nth_error (tokens p) i); [|discriminate].
  intros [= _ <-]. reflexivity.
Qed.

Lemma ensures_match ty v p :
  ensures (match_ ty v) p
    (fun b p' =>
       if b then exists t, accepts ty v t = true /\ after [t] p p'
       else p' = p /\ forall t, next p = Some t -> accepts ty v t = false).
Proof.
  intros b p'. rewrite ParserFacts.match_run.
  destruct (next p) as [t|] eqn:E.
  - destruct (accepts ty v t) eqn:Ea; intros [= <- <-].
    + exists t. split; [exact Ea|]. apply after_stepped, E.
    + split; [reflexivity|]. intros t' [= <-]. exact Ea.
  - intros [= <- <-]. split; [reflexivity|discriminate].
Qed.

Lemma ensures_expect ty v what p :
  ensures (expect ty v what) p
    (fun _ p' => exists t, accepts ty v t = true /\ after [t] p p').
Proof.
  intros a p'. rewrite expect_run. destruct (next p) as [t|] eqn:E.
  - destruct (accepts ty v t) eqn:Ea; [|discriminate]. intros [= ?].
    subst p'. exists t. split; [exact Ea|]. apply after_stepped, E.
  - discriminate.
Qed.

Lemma ensures_open_bracket c p :
  ensures (open_bracket c) p
    (fun _ p' =>
       exists l, reaches [] (c :: bracketStack p) (l :: lineStack p) p p').
Proof.
  intros a p'. rewrite open_bracket_run.
  destruct (position p) as [|i] eqn:Ei; [discriminate|].
  destruct (nth_error (tokens p) i) as [t|]; [|discriminate].
  intros [= ?]. subst p'. exists (line t). unfold reaches, rest. simpl.
  rewrite Ei. repeat split; lia.
Qed.

Lemma ensures_close_bracket p :
  ensures close_bracket p
    (fun _ p' =>
       exists c l bs ls,
         bracketStack p = c :: bs /\ lineStack p = l :: ls
         /\ reaches [] bs ls p p').
Proof.
  intros a p'. rewrite close_bracket_run.
  destruct (bracketStack p) as [|c bs] eqn:Eb; [discriminate|].
  destruct (lineStack p) as [|l ls] eqn:El; [discriminate|].
  intros [= ?]. subst p'. exists c, l, bs, ls. unfold reaches, rest. simpl.
  repeat split; lia.
Qed.

Lemma ensures_dispatch p :
  ensures dispatch p
    (fun route p' =>
       match route with
       | ToUnexpectedToken => p' = p
       | _ => exists t, route_token route t = true /\ after [t] p p'
       end).
Proof.
  intros route p'. rewrite dispatch_run. destruct (next p) as [t|] eqn:E.
  - pose proof (after_stepped p t E) as Ha.
    repeat match goal with
           | |- context [if ?c then _ else _] => destruct c eqn:?
           end;
      intros [= <- <-]; try reflexivity; exists t; split; assumption.
  - intros [= <- <-]. reflexivity.
Qed.

(** One step of a sequence: the fact about the first command, then the
    rest from the state it leaves. *)
Ltac step L :=
  eapply ensures_bind; [apply L | cbv beta; intros ? ? ?].

Ltac branch :=
  match goal with
  | |- ensures (if ?b then _ else _) _ _ => destruct b
  end.

Ltac open_facts :=
  repeat match goal with
         | H : exists _, _ |- _ => destruct H
         | H : _ /\ _ |- _ => destruct H
         end.

Lemma ensures_parseExpression fuel p :
  ensures (parseExpression fuel) p
    (fun _ p' => exists e, after e p p' /\ (Expression e \/ rest p' = [])).
Proof.
  revert p. induction fuel as [|fuel IH]; intros p; [discriminate|].
  cbn [parseExpression]. step ensures_match. branch.
  - open_facts. step ensures_previous. subst. step IH. open_facts.
    intros r p' [= _ <-].
    match goal with
    | Ht : accepts OPERATOR "!" ?t = true,
      He : after ?e _ _ |- _ =>
        exists (t :: e); split; [chain|]
    end.
    match goal with
    | H : _ \/ _ |- _ => destruct H; [left|right; assumption]
    end.
    apply Expr_not; assumption.
  - open_facts. subst. intros r p'. rewrite ParserFacts.bind_run.
    destruct (next p) as [t|] eqn:E.
    + rewrite (ParserFacts.advance_next p t E). intros [= _ <-].
      exists [t]. split; [apply after_stepped, E|]. left.
      apply Expr_token. unfold is_not. auto.
    + destruct (advance p) as [t p1| | |] eqn:Ea; try discriminate.
      intros [= _ <-]. exists []. 
      assert (p1 = p) as ->.
      { revert Ea. unfold advance.
        rewrite ParserFacts.bind_run, ParserFacts.isAtEnd_run, E.
        apply ensures_previous. }
      split; [apply after_refl|]. right. rewrite rest_next, E. reflexivity.
Qed.

Lemma ensures_declarators fuel ids p :
  ensures (declarators fuel ids) p
    (fun _ p' => exists ds, Declarators ds /\ after ds p p').
Proof.
  revert ids p. induction fuel as [|fuel IH]; intros ids p; [discriminate|].
  cbn [declarators]. step ensures_match.
  branch; [|apply ensures_throw_at_line].
  open_facts. step ensures_previous. subst. step ensures_match. branch.
  - open_facts. eapply ensures_mono; [apply IH|]. cbv beta.
    intros r p' ?. open_facts.
    match goal with
    | Hn : accepts IDENTIFIER EmptyString ?n = true,
      Hc : accepts PUNCTUATION "," ?c = true,
      Hd : Declarators ?ds |- _ =>
        exists (n :: c :: ds); split; [apply Decl_more; assumption|chain]
    end.
  - open_facts. subst. intros r p' [= _ <-].
    match goal with
    | Hn : accepts IDENTIFIER EmptyString ?n = true |- _ =>
        exists [n]; split; [apply Decl_last; assumption|assumption]
    end.
Qed.

Lemma ensures_parseVariableDeclaration fuel p :
  ensures (parseVariableDeclaration fuel) p
    (fun _ p' =>
       exists ds semi,
         Declarators ds /\ accepts PUNCTUATION ";" semi = true
         /\ after (ds ++ [semi]) p p').
Proof.
  unfold parseVariableDeclaration. step ensures_previous. subst.
  step ensures_declarators. step ensures_expect. open_facts.
  intros r p' [= _ <-].
  match goal with
  | Hd : Declarators ?ds, Hs : accepts PUNCTUATION ";" ?t = true |- _ =>
      exists ds, t; split; [assumption|split; [assumption|chain]]
  end.
Qed.

Lemma ensures_parseFileDeclaration p :
  ensures parseFileDeclaration p
    (fun _ p' =>
       exists name lp lit rp semi,
         accepts IDENTIFIER EmptyString name = true
         /\ accepts PUNCTUATION "(" lp = true
         /\ accepts LITERAL EmptyString lit = true
         /\ accepts PUNCTUATION ")" rp = true
         /\ accepts PUNCTUATION ";" semi = true
         /\ after [name; lp; lit; rp; semi] p p').
Proof.
  unfold parseFileDeclaration.
  step ensures_expect. step ensures_previous. subst.
  step ensures_expect. step ensures_open_bracket.
  step ensures_expect. step ensures_expect. step ensures_close_bracket.
  step ensures_expect. open_facts. intros r p' [= _ <-].
  match goal with
  | H1 : accepts IDENTIFIER EmptyString ?name = true,
    H2 : accepts PUNCTUATION "(" ?lp = true,
    H3 : accepts LITERAL EmptyString ?lit = true,
    H4 : accepts PUNCTUATION ")" ?rp = true,
    H5 : accepts PUNCTUATION ";" ?semi = true |- _ =>
      exists name, lp, lit, rp, semi; repeat (split; [assumption|])
  end.
  chain.
Qed.

Lemma ensures_parseFileOperation p :
  ensures parseFileOperation p
    (fun _ p' =>
       exists dot method lp rp semi,
         accepts PUNCTUATION "." dot = true
         /\ accepts IDENTIFIER EmptyString method = true
         /\ accepts PUNCTUATION "(" lp = true
         /\ accepts PUNCTUATION ")" rp = true
         /\ accepts PUNCTUATION ";" semi = true
         /\ after [dot; method; lp; rp; semi] p p').
Proof.
  unfold parseFileOperation. step ensures_previous. subst.
  step ensures_match. branch; [|apply ensures_throw_at_line].
  step ensures_expect. step ensures_expect. step ensures_open_bracket.
  step ensures_expect. step ensures_close_bracket. step ensures_expect.
  open_facts. intros r p' [= _ <-].
  match goal with
  | H1 : accepts PUNCTUATION "." ?dot = true,
    H2 : accepts IDENTIFIER EmptyString ?method = true,
    H3 : accepts PUNCTUATION "(" ?lp = true,
    H4 : accepts PUNCTUATION ")" ?rp = true,
    H5 : accepts PUNCTUATION ";" ?semi = true |- _ =>
      exists dot, method, lp, rp, semi; repeat (split; [assumption|])
  end.
  chain.
Qed.

Section CompoundSound.

Variable stmt : M unit.
Variable fuel : nat.

Hypothesis stmt_sound :
  forall p,
    ensures stmt p (fun _ p' => exists s, Statement s /\ after s p p').

Lemma ensures_block n p :
  ensures (block stmt n) p
    (fun _ p' =>
       exists body rb,
         Statements body /\ accepts PUNCTUATION "}" rb = true
         /\ after (body ++ [rb]) p p').
Proof.
  revert p. induction n as [|n IH]; intros p; [discriminate|].
  cbn [block]. step ensures_match. branch.
  - open_facts. intros r p' [= _ <-].
    match goal with
    | H : accepts PUNCTUATION "}" ?t = true |- _ =>
        exists [], t; split; [constructor|split; assumption]
    end.
  - open_facts. subst. step stmt_sound.
    eapply ensures_mono; [apply IH|]. cbv beta.
    intros r p' ?. open_facts.
    match goal with
    | Hs : Statement ?s, Hb : Statements ?body,
      Hr : accepts PUNCTUATION "}" ?rb = true |- _ =>
        exists (s ++ body), rb;
        split; [constructor; assumption|split; [assumption|chain]]
    end.
Qed.

Lemma expression_followed t q q' e :
  after [t] q q' -> Expression e \/ rest q = [] -> Expression e.
Proof.
  intros Ha [He|Hn]; [exact He|]. unfold after, reaches in Ha.
  destruct Ha as (_ & _ & Hr & _). rewrite Hn in Hr. discriminate.
Qed.

(** An expression that something follows has consumed a token. *)
Ltac followed :=
  repeat match goal with
         | H : Expression ?e \/ rest ?q = [], H' : after [_] ?q _ |- _ =>
             pose proof (expression_followed _ _ _ _ H' H); clear H
         end.

(** The common proof for [if] and [while]: the nine commands one after
    the other, then the tokens they have consumed put together. *)
Ltac guarded_statement :=
  step ensures_expect; step ensures_open_bracket;
  step ensures_parseExpression; step ensures_expect;
  step ensures_close_bracket; step ensures_expect;
  step ensures_open_bracket; step ensures_block;
  step ensures_close_bracket; open_facts; followed;
  intros ? ? [= _ <-];
  match goal with
  | H1 : accepts PUNCTUATION "(" ?lp = true, H2 : Expression ?e,
    H3 : accepts PUNCTUATION ")" ?rp = true,
    H4 : accepts PUNCTUATION "{" ?lb = true, H5 : Statements ?body,
    H6 : accepts PUNCTUATION "}" ?rb = true |- _ =>
      exists (lp :: e ++ rp :: lb :: body ++ [rb]); split;
      [exists lp, e, rp, lb, body, rb; repeat (split; [assumption|]);
       reflexivity|]
  end;
  chain.

Lemma ensures_parseIfStatement p :
  ensures (parseIfStatement stmt fuel) p
    (fun _ p' => exists s, guarded s /\ after s p p').
Proof. unfold parseIfStatement. guarded_statement. Qed.

Lemma ensures_parseWhileStatement p :
  ensures (parseWhileStatement stmt fuel) p
    (fun _ p' => exists s, guarded s /\ after s p p').
Proof. unfold parseWhileStatement. guarded_statement. Qed.

Lemma ensures_parseForStatement p :
  ensures (parseForStatement stmt fuel) p
    (fun _ p' => exists s, counted s /\ after s p p').
Proof.
  unfold parseForStatement.
  step ensures_expect. step ensures_open_bracket.
  step ensures_parseExpression. step ensures_expect.
  step ensures_parseExpression. step ensures_expect.
  step ensures_parseExpression. step ensures_expect.
  step ensures_close_bracket. step ensures_expect.
  step ensures_open_bracket. step ensures_block.
  step ensures_close_bracket. open_facts. followed.
  intros ? ? [= _ <-].
  match goal with
  | H1 : accepts PUNCTUATION "(" ?lp = true,
    A1 : after ?e1 _ ?q1, S1 : after [?semi1] ?q1 ?q2,
    A2 : after ?e2 ?q2 ?q3, S2 : after [?semi2] ?q3 ?q4,
    A3 : after ?e3 ?q4 ?q5, S3 : after [?rp] ?q5 _,
    H4 : accepts PUNCTUATION "{" ?lb = true, H5 : Statements ?body,
    H6 : accepts PUNCTUATION "}" ?rb = true |- _ =>
      exists (lp :: e1 ++ semi1 :: e2 ++ semi2 :: e3 ++ rp :: lb :: body
                 ++ [rb]);
      split;
      [exists lp, e1, semi1, e2, semi2, e3, rp, lb, body, rb;
       repeat (split; [assumption|]); reflexivity|]
  end.
  chain.
Qed.

End CompoundSound.

Lemma ensures_parseStatement fuel p :
  ensures (parseStatement fuel) p
    (fun _ p' => exists s, Statement s /\ after s p p').
Proof.
  revert p. induction fuel as [|fuel IH]; intros p; [discriminate|].
  cbn [parseStatement]. step ensures_dispatch.
  destruct a; open_facts; cbn [route_token] in *.
  - step ensures_parseVariableDeclaration. open_facts.
    intros ? ? [= _ <-].
    match goal with
    | H1 : accepts KEYWORD "int" ?kw = true, H2 : Declarators ?ds,
      H3 : accepts PUNCTUATION ";" ?semi = true |- _ =>
        exists (kw :: ds ++ [semi]); split; [constructor; assumption|chain]
    end.
  - step ensures_parseFileDeclaration. open_facts.
    intros ? ? [= _ <-].
    match goal with
    | H1 : file_keyword ?kw = true,
      H2 : after [?name; ?lp; ?lit; ?rp; ?semi] _ _ |- _ =>
        exists [kw; name; lp; lit; rp; semi];
        split; [constructor; assumption|chain]
    end.
  - step ensures_parseFileOperation. open_facts.
    intros ? ? [= _ <-].
    match goal with
    | H1 : after [?name] _ ?q,
      H2 : after [?dot; ?method; ?lp; ?rp; ?semi] ?q _ |- _ =>
        exists [name; dot; method; lp; rp; semi];
        split; [constructor; assumption|chain]
    end.
  - step (ensures_parseIfStatement (parseStatement fuel) fuel IH).
    open_facts. intros ? ? [= _ <-].
    match goal with
    | H : guarded _ |- _ =>
        destruct H as (lp & e & rp & lb & body & rb & ? & ? & ? & ? & ? & ?
                       & ->)
    end.
    match goal with
    | H1 : accepts KEYWORD "if" ?kw = true |- _ =>
        exists (kw :: lp :: e ++ rp :: lb :: body ++ [rb]);
        split; [apply St_if; assumption|chain]
    end.
  - step (ensures_parseWhileStatement (parseStatement fuel) fuel IH).
    open_facts. intros ? ? [= _ <-].
    match goal with
    | H : guarded _ |- _ =>
        destruct H as (lp & e & rp & lb & body & rb & ? & ? & ? & ? & ? & ?
                       & ->)
    end.
    match goal with
    | H1 : accepts KEYWORD "while" ?kw = true |- _ =>
        exists (kw :: lp :: e ++ rp :: lb :: body ++ [rb]);
        split; [apply St_while; assumption|chain]
    end.
  - step (ensures_parseForStatement (parseStatement fuel) fuel IH).
    open_facts. intros ? ? [= _ <-].
    match goal with
    | H : counted _ |- _ =>
        destruct H as (lp & e1 & semi1 & e2 & semi2 & e3 & rp & lb & body
                       & rb & ? & ? & ? & ? & ? & ? & ? & ? & ? & ? & ->)
    end.
    match goal with
    | H1 : accepts KEYWORD "for" ?kw = true |- _ =>
        exists (kw :: lp :: e1 ++ semi1 :: e2 ++ semi2 :: e3 ++ rp :: lb
                   :: body ++ [rb]);
        split; [apply St_for; assumption|chain]
    end.
  - intros r p'. rewrite !ParserFacts.bind_run, ParserFacts.peek_run.
    match goal with
    | |- context [next ?q] => destruct (next q) eqn:En
    end; [|discriminate].
    rewrite ParserFacts.bind_run, ParserFacts.peek_run, En. discriminate.
Qed.

Lemma ensures_statements fuel n p :
  ensures (statements fuel n) p
    (fun _ p' => exists ss, Statements ss /\ after ss p p' /\ rest p' = []).
Proof.
  revert p. induction n as [|n IH]; intros p; [discriminate|].
  cbn [statements]. intros r p'.
  rewrite ParserFacts.bind_run, ParserFacts.isAtEnd_run.
  destruct (next p) as [t|] eqn:E.
  - revert r p'. step ensures_parseStatement.
    eapply ensures_mono; [apply IH|]. cbv beta. intros r p' ?. open_facts.
    match goal with
    | H1 : Statement ?s, H2 : Statements ?ss |- _ =>
        exists (s ++ ss); split; [constructor; assumption|]
    end.
    match goal with
    | Hn : rest _ = [] |- _ => split; [clear Hn; chain|exact Hn]
    end.
  - intros [= _ <-]. exists []. split; [constructor|].
    split; [apply after_refl|]. rewrite rest_next, E. reflexivity.
Qed.

Lemma parse_return toks tree p :
  parse toks = Return tree p ->
  tree = None
  /\ statements (S (List.length toks)) (S (List.length toks)) (init toks)
     = Return tt p.
Proof.
  unfold parse, parse_with, parseProgram. intros E.
  rewrite ParserFacts.bind_run in E.
  destruct (statements _ _ (init toks)) as [[] p1| | |] eqn:Es;
    try discriminate.
  rewrite ParserFacts.bind_run in E. unfold bracketStack_empty in E.
  destruct (bracketStack p1).
  - injection E as <- <-. auto.
  - rewrite ParserFacts.bind_run in E. unfold lineStack_top in E.
    destruct (lineStack p1); discriminate.
Qed.

Lemma parse_sound toks tree p :
  parse toks = Return tree p -> Statements toks.
Proof.
  intros E. apply parse_return in E as [_ Es].
  apply ensures_statements in Es. destruct Es as (ss & Hs & Ha & Hn).
  destruct Ha as (_ & _ & Hr & _). rewrite Hn, app_nil_r in Hr.
  unfold rest in Hr. simpl in Hr. subst ss. exact Hs.
Qed.

(** ** What the parser returns on *)

Lemma rest_length p :
  List.length (rest p) = List.length (tokens p) - position p.
Proof. unfold rest. apply length_skipn. Qed.

Lemma after_inside t q p : after [t] q p -> inside p.
Proof.
  intros (Ht & Hp & Hr & _). unfold inside.
  pose proof (rest_length q) as Hl. rewrite Hr in Hl. simpl in *.
  rewrite Ht. lia.
Qed.

Lemma reaches_inside bs ls q p : reaches [] bs ls q p -> inside q -> inside p.
Proof.
  intros (Ht & Hp & _) Hq. unfold inside in *. simpl in *. rewrite Ht. lia.
Qed.

Lemma reaches_rest s bs ls p p' r :
  reaches s bs ls p p' -> rest p = s ++ r -> rest p' = r.
Proof.
  intros (_ & _ & Hr & _) E. rewrite Hr in E.
  apply app_inv_head in E. exact E.
Qed.

Lemma returns_bind {A B} (m : M A) (k : A -> M B) p
    (Q : A -> State -> Prop) (R : B -> State -> Prop) :
  returns m p Q ->
  (forall a p1, Q a p1 -> returns (k a) p1 R) ->
  returns (bind m k) p R.
Proof.
  intros (a & p1 & Em & HQ) Hk. unfold returns.
  rewrite ParserFacts.bind_run, Em. exact (Hk a p1 HQ).
Qed.

Lemma returns_mono {A} (m : M A) p (Q R : A -> State -> Prop) :
  returns m p Q -> (forall a p', Q a p' -> R a p') -> returns m p R.
Proof. intros (a & p' & E & HQ) H. exists a, p'. auto. Qed.

Lemma returns_ret {A} (a : A) p (Q : A -> State -> Prop) :
  Q a p -> returns (ret a) p Q.
Proof. intros H. exists a, p. auto. Qed.

Lemma returns_previous p :
  inside p -> returns previous p (fun _ p' => p' = p).
Proof.
  intros H. destruct (ParserFacts.previous_run p H) as [t E].
  exists t, p. auto.
Qed.

Lemma returns_match ty v p t r :
  rest p = t :: r ->
  returns (match_ ty v) p
    (fun b p' =>
       b = accepts ty v t /\ if b then after [t] p p' else p' = p).
Proof.
  intros E. apply rest_cons in E as [E _]. unfold returns.
  rewrite ParserFacts.match_run, E. destruct (accepts ty v t).
  - exists true, (stepped p). split; [reflexivity|].
    split; [reflexivity|]. apply after_stepped, E.
  - exists false, p. auto.
Qed.

Lemma returns_expect ty v what p t r :
  rest p = t :: r -> accepts ty v t = true ->
  returns (expect ty v what) p (fun _ p' => after [t] p p').
Proof.
  intros E Ha. apply rest_cons in E as [E _]. unfold returns.
  rewrite expect_run, E, Ha. exists tt, (stepped p).
  split; [reflexivity|]. apply after_stepped, E.
Qed.

Lemma returns_open_bracket c p :
  inside p ->
  returns (open_bracket c) p
    (fun _ p' =>
       exists l, reaches [] (c :: bracketStack p) (l :: lineStack p) p p').
Proof.
  intros [Hlo Hhi]. unfold returns. rewrite open_bracket_run.
  destruct (position p) as [|i] eqn:Ei; [lia|].
  destruct (nth_error (tokens p) i) as [t|] eqn:Et.
  - eexists tt, _. split; [reflexivity|]. exists (line t).
    unfold reaches, rest. simpl. rewrite Ei. repeat split; lia.
  - apply nth_error_None in Et. lia.
Qed.

Lemma returns_close_bracket p :
  bracketStack p <> [] -> lineStack p <> [] ->
  returns close_bracket p
    (fun _ p' =>
       exists c l bs ls,
         bracketStack p = c :: bs /\ lineStack p = l :: ls
         /\ reaches [] bs ls p p').
Proof.
  intros Hb Hl. unfold returns. rewrite close_bracket_run.
  destruct (bracketStack p) as [|c bs] eqn:Eb; [congruence|].
  destruct (lineStack p) as [|l ls] eqn:El; [congruence|].
  eexists tt, _. split; [reflexivity|]. exists c, l, bs, ls.
  unfold reaches, rest. simpl. repeat split; lia.
Qed.

(** The test [match(type, value)] passes on at most one of two different
    types, and on at most one of two different texts. *)
Lemma accepts_type ty v t : accepts ty v t = true -> type t = ty.
Proof.
  unfold accepts. intros H. apply andb_true_iff in H as [H _].
  destruct (type t), ty; try discriminate; reflexivity.
Qed.

Lemma accepts_value ty v t :
  accepts ty v t = true -> v <> EmptyString -> value t = v.
Proof.
  unfold accepts. intros H Hv. apply andb_true_iff in H as [_ H].
  apply orb_true_iff in H as [H|H]; apply String.eqb_eq in H; congruence.
Qed.

Lemma file_keyword_spec t :
  file_keyword t = true ->
  type t = KEYWORD
  /\ (value t = "ifstream" \/ value t = "ofstream" \/ value t = "fstream").
Proof.
  unfold file_keyword. intros H.
  apply orb_true_iff in H as [H|H]; [apply orb_true_iff in H as [H|H]|];
    (split; [exact (accepts_type _ _ _ H)|]);
    apply accepts_value in H; auto; discriminate.
Qed.

Lemma returns_dispatch route p t r :
  rest p = t :: r -> route_token route t = true ->
  returns dispatch p (fun ro p' => ro = route /\ after [t] p p').
Proof.
  intros E Hr. apply rest_cons in E as [E _]. unfold returns.
  rewrite dispatch_run, E.
  assert (Hk : forall ro, ro = route ->
                 exists (a : Route) (p' : State),
                   Return ro (stepped p) = Return a p'
                   /\ a = route /\ after [t] p p').
  { intros ro ->. exists route, (stepped p).
    split; [reflexivity|]. split; [reflexivity|]. apply after_stepped, E. }
  destruct route; cbn [route_token] in Hr; try discriminate.
  - rewrite Hr. auto.
  - apply file_keyword_spec in Hr as Hs. destruct Hs as [Hty Hv].
    rewrite Hr. unfold accepts. rewrite Hty.
    destruct Hv as [-> | [-> | ->]]; simpl; auto.
  - pose proof (accepts_type _ _ _ Hr) as Hty. rewrite Hr.
    unfold file_keyword, accepts. rewrite Hty. simpl. auto.
  - pose proof (accepts_type _ _ _ Hr) as Hty.
    pose proof (accepts_value _ _ _ Hr ltac:(discriminate)) as Hv.
    unfold file_keyword, accepts. rewrite Hty, Hv. simpl. auto.
  - pose proof (accepts_type _ _ _ Hr) as Hty.
    pose proof (accepts_value _ _ _ Hr ltac:(discriminate)) as Hv.
    unfold file_keyword, accepts. rewrite Hty, Hv. simpl. auto.
  - pose proof (accepts_type _ _ _ Hr) as Hty.
    pose proof (accepts_value _ _ _ Hr ltac:(discriminate)) as Hv.
    unfold file_keyword, accepts. rewrite Hty, Hv. simpl. auto.
Qed.

Lemma after_rest_snoc body rb p p' r :
  after (body ++ [rb]) p p' -> rest p = body ++ rb :: r -> rest p' = r.
Proof.
  intros Ha E. apply (reaches_rest _ _ _ _ _ r Ha).
  rewrite <- app_assoc. exact E.
Qed.

(** What is left after a step, from what was left before it. *)
Ltac track :=
  try match goal with
      | Ha : after _ ?p ?q, Hr : rest ?p = _ |- _ =>
          lazymatch goal with
          | _ : rest q = _ |- _ => fail
          | _ => idtac
          end;
          first [ pose proof (reaches_rest _ _ _ _ _ _ Ha Hr)
                | pose proof (after_rest_snoc _ _ _ _ _ Ha Hr) ]
      | Ha : reaches _ _ _ ?p ?q, Hr : rest ?p = _ |- _ =>
          lazymatch goal with
          | _ : rest q = _ |- _ => fail
          | _ => idtac
          end;
          pose proof (reaches_rest _ _ _ _ _ _ Ha Hr)
      end.

(** The stacks are not empty. *)
Ltac stacks :=
  unfold after, reaches in *; open_facts; congruence.

(** The fuel covers the tokens that are left. *)
Ltac fuel_ok :=
  repeat match goal with
         | H : rest _ = _ |- _ => apply (f_equal (@List.length Token)) in H
         end;
  repeat (rewrite length_app in * || rewrite length_cons in *);
  simpl in *; lia.

(** The moves of the steps put together, what was left set aside. *)
Ltac finish :=
  repeat match goal with
         | H : rest _ = _ |- _ => clear H
         end;
  chain.

Ltac side :=
  first [ eassumption
        | solve [eauto using after_inside, reaches_inside]
        | stacks
        | fuel_ok ].

Ltac go L :=
  eapply returns_bind;
  [ eapply L; try solve [side]
  | cbv beta; intros ? ? ?; open_facts; track ].

Lemma returns_parseExpression fuel p e r :
  rest p = e ++ r -> Expression e -> List.length e <= fuel ->
  returns (parseExpression fuel) p (fun _ p' => after e p p').
Proof.
  intros Hr He. revert fuel p r Hr.
  induction He as [t Ht|t e Ht He IH]; intros fuel p r Hr Hf;
    (destruct fuel as [|fuel]; [simpl in Hf; lia|]);
    cbn [parseExpression];
    (eapply returns_bind; [eapply returns_match; exact Hr|]);
    intros b p1 [-> Hb]; fold (is_not t) in *; rewrite Ht in *.
  - subst p1. apply rest_cons in Hr as [En _]. unfold returns.
    rewrite ParserFacts.bind_run, (ParserFacts.advance_next p t En).
    exists None, (stepped p). split; [reflexivity|].
    apply after_stepped, En.
  - track. go returns_previous. subst.
    eapply returns_bind; [eapply IH; [eassumption|simpl in Hf; lia]|].
    cbv beta. intros ? ? ?. apply returns_ret. finish.
Qed.

Lemma returns_declarators ds :
  Declarators ds ->
  forall fuel ids p semi r,
    rest p = ds ++ semi :: r ->
    accepts PUNCTUATION "," semi = false ->
    List.length ds <= fuel ->
    returns (declarators fuel ids) p (fun _ p' => after ds p p').
Proof.
  induction 1 as [name Hn|name comma ds Hn Hc Hd IH];
    intros fuel ids p semi r Hr Hs Hf;
    (destruct fuel as [|fuel]; [simpl in Hf; lia|]);
    cbn [declarators];
    (eapply returns_bind; [eapply returns_match; exact Hr|]);
    intros b p1 [-> Hb]; rewrite Hn in *; track;
    go returns_previous; subst;
    (eapply returns_bind; [eapply returns_match; eassumption|]);
    intros b p2 [-> Hb2].
  - rewrite Hs in *. subst p2. apply returns_ret. assumption.
  - rewrite Hc in *. track.
    eapply returns_mono; [eapply IH; [eassumption|exact Hs|simpl in Hf; lia]|].
    cbv beta. intros ? ? ?. finish.
Qed.

Lemma returns_parseVariableDeclaration fuel p ds semi r :
  inside p -> Declarators ds -> accepts PUNCTUATION ";" semi = true ->
  rest p = ds ++ semi :: r -> List.length ds <= fuel ->
  returns (parseVariableDeclaration fuel) p
    (fun _ p' => after (ds ++ [semi]) p p').
Proof.
  intros Hi Hd Hs Hr Hf. unfold parseVariableDeclaration.
  go returns_previous. subst.
  eapply returns_bind.
  { eapply (returns_declarators ds Hd); [exact Hr| |exact Hf].
    pose proof (accepts_value _ _ _ Hs ltac:(discriminate)) as Hv.
    unfold accepts. rewrite Hv. apply andb_false_r. }
  cbv beta. intros ? ? ?. track.
  go returns_expect. apply returns_ret. finish.
Qed.

Lemma returns_parseFileDeclaration p name lp lit rp semi r :
  rest p = name :: lp :: lit :: rp :: semi :: r ->
  accepts IDENTIFIER EmptyString name = true ->
  accepts PUNCTUATION "(" lp = true ->
  accepts LITERAL EmptyString lit = true ->
  accepts PUNCTUATION ")" rp = true ->
  accepts PUNCTUATION ";" semi = true ->
  returns parseFileDeclaration p
    (fun _ p' => after [name; lp; lit; rp; semi] p p').
Proof.
  intros Hr H1 H2 H3 H4 H5. unfold parseFileDeclaration.
  go returns_expect. go returns_previous. subst.
  go returns_expect. go returns_open_bracket.
  go returns_expect. go returns_expect. go returns_close_bracket.
  go returns_expect. apply returns_ret. finish.
Qed.

Lemma returns_parseFileOperation p dot method lp rp semi r :
  rest p = dot :: method :: lp :: rp :: semi :: r ->
  inside p ->
  accepts PUNCTUATION "." dot = true ->
  accepts IDENTIFIER EmptyString method = true ->
  accepts PUNCTUATION "(" lp = true ->
  accepts PUNCTUATION ")" rp = true ->
  accepts PUNCTUATION ";" semi = true ->
  returns parseFileOperation p
    (fun _ p' => after [dot; method; lp; rp; semi] p p').
Proof.
  intros Hr Hi H1 H2 H3 H4 H5. unfold parseFileOperation.
  go returns_previous. subst.
  eapply returns_bind; [eapply returns_match; exact Hr|].
  intros b p1 [-> Hb]. rewrite H1 in *. track.
  go returns_expect. go returns_expect. go returns_open_bracket.
  go returns_expect. go returns_close_bracket.
  go returns_expect. apply returns_ret. finish.
Qed.

(** A statement starts with a keyword or an identifier. *)
Lemma statement_head s :
  Statement s ->
  exists t s', s = t :: s' /\ accepts PUNCTUATION "}" t = false.
Proof.
  assert (Hk : forall v t, accepts KEYWORD v t = true ->
                           accepts PUNCTUATION "}" t = false).
  { intros v t H. apply accepts_type in H. unfold accepts. rewrite H.
    reflexivity. }
  destruct 1 as [kw| kw | name | kw | kw | kw];
    (eexists _, _; split; [reflexivity|]); try (now eauto).
  - match goal with
    | H : file_keyword _ = true |- _ =>
        apply file_keyword_spec in H as [H _];
        unfold accepts; rewrite H; reflexivity
    end.
  - match goal with
    | H : accepts IDENTIFIER _ name = true |- _ =>
        apply accepts_type in H; unfold accepts; rewrite H; reflexivity
    end.
Qed.

Section CompoundComplete.

Variable stmt : M unit.
Variable fuel : nat.

Hypothesis stmt_complete :
  forall s p r,
    Statement s -> rest p = s ++ r -> List.length (rest p) < fuel ->
    returns stmt p (fun _ p' => after s p p').

Lemma returns_block body :
  Statements body ->
  forall n p rb r,
    accepts PUNCTUATION "}" rb = true ->
    rest p = body ++ rb :: r ->
    List.length body < n -> List.length (rest p) < fuel ->
    returns (block stmt n) p (fun _ p' => after (body ++ [rb]) p p').
Proof.
  induction 1 as [|s ss Hs Hss IH]; intros n p rb r Hrb Hr Hn Hf;
    (destruct n as [|n]; [simpl in Hn; lia|]); cbn [block].
  - eapply returns_bind; [eapply returns_match; exact Hr|].
    intros b p1 [-> Hb]. rewrite Hrb in *. apply returns_ret. exact Hb.
  - destruct (statement_head s Hs) as (t & s' & -> & Ht).
    eapply returns_bind; [eapply returns_match; exact Hr|].
    intros b p1 [-> Hb]. rewrite Ht in *. subst p1.
    rewrite <- app_assoc in Hr.
    eapply returns_bind; [exact (stmt_complete _ _ _ Hs Hr Hf)|].
    cbv beta. intros ? ? ?. track.
    eapply returns_mono.
    { eapply IH; [exact Hrb|eassumption| |].
      - rewrite length_app in Hn. simpl in Hn. lia.
      - fuel_ok. }
    cbv beta. intros ? ? ?. finish.
Qed.

Ltac guarded_returns :=
  go returns_expect; go returns_open_bracket;
  go returns_parseExpression; go returns_expect;
  go returns_close_bracket; go returns_expect;
  go returns_open_bracket; go returns_block;
  go returns_close_bracket; apply returns_ret; finish.

Lemma returns_parseIfStatement p lp e rp lb body rb r :
  rest p = lp :: e ++ rp :: lb :: body ++ rb :: r ->
  accepts PUNCTUATION "(" lp = true -> Expression e ->
  accepts PUNCTUATION ")" rp = true ->
  accepts PUNCTUATION "{" lb = true -> Statements body ->
  accepts PUNCTUATION "}" rb = true ->
  List.length (rest p) < fuel ->
  returns (parseIfStatement stmt fuel) p
    (fun _ p' => after (lp :: e ++ rp :: lb :: body ++ [rb]) p p').
Proof.
  intros Hr H1 H2 H3 H4 H5 H6 Hf. unfold parseIfStatement.
  guarded_returns.
Qed.

Lemma returns_parseWhileStatement p lp e rp lb body rb r :
  rest p = lp :: e ++ rp :: lb :: body ++ rb :: r ->
  accepts PUNCTUATION "(" lp = true -> Expression e ->
  accepts PUNCTUATION ")" rp = true ->
  accepts PUNCTUATION "{" lb = true -> Statements body ->
  accepts PUNCTUATION "}" rb = true ->
  List.length (rest p) < fuel ->
  returns (parseWhileStatement stmt fuel) p
    (fun _ p' => after (lp :: e ++ rp :: lb :: body ++ [rb]) p p').
Proof.
  intros Hr H1 H2 H3 H4 H5 H6 Hf. unfold parseWhileStatement.
  guarded_returns.
Qed.

Lemma returns_parseForStatement p lp e1 semi1 e2 semi2 e3 rp lb body rb r :
  rest p = lp :: e1 ++ semi1 :: e2 ++ semi2 :: e3 ++ rp :: lb :: body
              ++ rb :: r ->
  accepts PUNCTUATION "(" lp = true -> Expression e1 ->
  accepts PUNCTUATION ";" semi1 = true -> Expression e2 ->
  accepts PUNCTUATION ";" semi2 = true -> Expression e3 ->
  accepts PUNCTUATION ")" rp = true ->
  accepts PUNCTUATION "{" lb = true -> Statements body ->
  accepts PUNCTUATION "}" rb = true ->
  List.length (rest p) < fuel ->
  returns (parseForStatement stmt fuel) p
    (fun _ p' =>
       after (lp :: e1 ++ semi1 :: e2 ++ semi2 :: e3 ++ rp :: lb :: body
                 ++ [rb]) p p').
Proof.
  intros Hr H1 H2 H3 H4 H5 H6 H7 H8 H9 H10 Hf. unfold parseForStatement.
  go returns_expect. go returns_open_bracket.
  go returns_parseExpression. go returns_expect.
  go returns_parseExpression. go returns_expect.
  go returns_parseExpression. go returns_expect.
  go returns_close_bracket. go returns_expect.
  go returns_open_bracket. go returns_block.
  go returns_close_bracket. apply returns_ret. finish.
Qed.

End CompoundComplete.

Lemma returns_parseStatement fuel s p r :
  Statement s -> rest p = s ++ r -> List.length (rest p) < fuel ->
  returns (parseStatement fuel) p (fun _ p' => after s p p').
Proof.
  revert s p r. induction fuel as [|fuel IH]; intros s p r Hs Hr Hf; [lia|].
  cbn [parseStatement].
  destruct Hs as [kw ds semi H1 H2 H3
                 |kw name lp lit rp semi H1 H2 H3 H4 H5 H6
                 |name dot method lp rp semi H1 H2 H3 H4 H5 H6
                 |kw lp e rp lb body rb H1 H2 H3 H4 H5 H6 H7
                 |kw lp e rp lb body rb H1 H2 H3 H4 H5 H6 H7
                 |kw lp e1 semi1 e2 semi2 e3 rp lb body rb
                     H1 H2 H3 H4 H5 H6 H7 H8 H9 H10 H11];
    repeat (progress (simpl in Hr; rewrite <- ?app_assoc in Hr)).
  - eapply returns_bind;
      [exact (returns_dispatch ToVariableDeclaration _ _ _ Hr H1)|].
    cbv beta. intros ro p1 [-> Ha]. track.
    go returns_parseVariableDeclaration. apply returns_ret. finish.
  - eapply returns_bind;
      [exact (returns_dispatch ToFileDeclaration _ _ _ Hr H1)|].
    cbv beta. intros ro p1 [-> Ha]. track.
    go returns_parseFileDeclaration. apply returns_ret. finish.
  - eapply returns_bind;
      [exact (returns_dispatch ToFileOperation _ _ _ Hr H1)|].
    cbv beta. intros ro p1 [-> Ha]. track.
    go returns_parseFileOperation. apply returns_ret. finish.
  - eapply returns_bind;
      [exact (returns_dispatch ToIfStatement _ _ _ Hr H1)|].
    cbv beta. intros ro p1 [-> Ha]. track.
    go (returns_parseIfStatement (parseStatement fuel) fuel IH).
    apply returns_ret. finish.
  - eapply returns_bind;
      [exact (returns_dispatch ToWhileStatement _ _ _ Hr H1)|].
    cbv beta. intros ro p1 [-> Ha]. track.
    go (returns_parseWhileStatement (parseStatement fuel) fuel IH).
    apply returns_ret. finish.
  - eapply returns_bind;
      [exact (returns_dispatch ToForStatement _ _ _ Hr H1)|].
    cbv beta. intros ro p1 [-> Ha]. track.
    go (returns_parseForStatement (parseStatement fuel) fuel IH).
    apply returns_ret. finish.
Qed.

Lemma returns_statements ss :
  Statements ss ->
  forall fuel n p,
    rest p = ss -> List.length ss < fuel -> List.length ss < n ->
    returns (statements fuel n) p
      (fun _ p' => after ss p p' /\ rest p' = []).
Proof.
  induction 1 as [|s ss Hs Hss IH]; intros fuel n p Hr Hf Hn;
    (destruct n as [|n]; [simpl in Hn; lia|]); cbn [statements];
    unfold returns; rewrite ParserFacts.bind_run, ParserFacts.isAtEnd_run.
  - rewrite (rest_nil p Hr). exists tt, p.
    split; [reflexivity|]. split; [apply after_refl|exact Hr].
  - destruct (statement_head s Hs) as (t & s' & -> & _).
    simpl in Hr. apply rest_cons in Hr as Hc. destruct Hc as [En _].
    rewrite En. fold (returns (parseStatement fuel ;;; statements fuel n) p
                        (fun _ p' => after ((t :: s') ++ ss) p p'
                                     /\ rest p' = [])).
    eapply returns_bind.
    { apply (returns_parseStatement fuel (t :: s') p ss Hs Hr).
      rewrite Hr. exact Hf. }
    cbv beta. intros ? p1 Ha. track.
    eapply returns_mono.
    { eapply IH; [eassumption| |];
        rewrite length_app in *; simpl in *; lia. }
    cbv beta. intros ? p2 [Ha2 Hn2]. split; [|exact Hn2].
    clear Hn2. finish.
Qed.

Lemma parse_complete toks :
  Statements toks -> exists p, parse toks = Return None p.
Proof.
  intros Hs. unfold parse, parse_with, parseProgram.
  destruct (returns_statements toks Hs (S (List.length toks))
              (S (List.length toks)) (init toks) eq_refl
              (Nat.lt_succ_diag_r _) (Nat.lt_succ_diag_r _))
    as ([] & p & E & Ha & _).
  rewrite ParserFacts.bind_run, E. exists p.
  destruct Ha as (_ & _ & _ & Hb & _). simpl in Hb.
  rewrite ParserFacts.bind_run. unfold bracketStack_empty. rewrite Hb.
  reflexivity.
Qed.

End GrammarFacts.

(** [parse] returns normally exactly on the token sequences of the grammar
    read off the statement parsers: a sequence of statements, each a
    declaration of [int] variables, a file declaration, a member call, or an
    [if], [while] or [for] statement with a block of statements. On every
    other sequence it throws or reads past the end. *)
Theorem parse_returns_iff_statements (toks : list Token) :
  (exists tree p, parse toks = Return tree p) <-> GrammarSpec.Statements toks.
Proof.
  split.
  - intros (tree & p & E). exact (GrammarFacts.parse_sound toks tree p E).
  - intros H. destruct (GrammarFacts.parse_complete toks H) as [p E].
    exists None, p. exact E.
Qed.

(** When [parse] returns, it returns no tree, every token has been
    consumed, and both stacks of the bracket tracker are empty. *)
Theorem parse_returns_at_end (toks : list Token) (tree : option ASTNode)
    (p : State) :
  parse toks = Return tree p ->
  tree = None /\ tokens p = toks /\ position p = List.length toks
  /\ bracketStack p = [] /\ lineStack p = [].
Proof.
  intros E. pose proof (ParserFacts.sat_parse toks) as Hs.
  unfold sat in Hs. unfold parse, parse_with in E. rewrite E in Hs.
  destruct Hs as (-> & Ht & Hb & Hl & _ & Hhi).
  fold (parse_with (S (List.length toks)) toks) in E. fold (parse toks) in E.
  apply GrammarFacts.parse_return in E as [_ Es].
  apply GrammarFacts.ensures_statements in Es.
  destruct Es as (_ & _ & _ & Hn).
  pose proof (GrammarFacts.rest_length p) as Hlen.
  rewrite Hn, Ht in Hlen. simpl in Hlen.
  repeat split; auto. lia.
Qed.

Lemma parse_returns_at_end_witness :
  parse [Keyword "int" 1; Identifier "a" 1; Punctuation ";" 1]
  = Return None
      (mkState [Keyword "int" 1; Identifier "a" 1; Punctuation ";" 1] 3 [] [])
  /\ (@None ASTNode = None
      /\ tokens
           (mkState [Keyword "int" 1; Identifier "a" 1; Punctuation ";" 1]
              3 [] [])
         = [Keyword "int" 1; Identifier "a" 1; Punctuation ";" 1]
      /\ position
           (mkState [Keyword "int" 1; Identifier "a" 1; Punctuation ";" 1]
              3 [] [])
         = List.length [Keyword "int" 1; Identifier "a" 1; Punctuation ";" 1]
      /\ bracketStack
           (mkState [Keyword "int" 1; Identifier "a" 1; Punctuation ";" 1]
              3 [] [])
         = []
      /\ lineStack
           (mkState [Keyword "int" 1; Identifier "a" 1; Punctuation ";" 1]
              3 [] [])
         = []).
Proof.
  split; [reflexivity|].
  exact (parse_returns_at_end
           [Keyword "int" 1; Identifier "a" 1; Punctuation ";" 1] None
           (mkState [Keyword "int" 1; Identifier "a" 1; Punctuation ";" 1]
              3 [] [])
           eq_refl).
Defined.

(** Whatever the source, [main] never writes the line that reports a
    successful parse: it ends with the line of the failure, with the
    message of an exception on [cerr], or in the undefined read past the
    end of the tokens. *)
Theorem main_never_reports_success (code : string) :
  exists e,
    Driver.main code = Some e
    /\ match e with
       | Driver.Finished written | Driver.Crashed written _ =>
           ~ In "Parsing completed successfully." (Driver.cout written)
       | Driver.Starved => False
       end.
Proof.
  destruct (LexerFacts.tokenize_total code) as [toks Htoks].
  unfold Driver.main. rewrite Htoks. eexists. split; [reflexivity|].
  assert (Hp : ~ In "Parsing completed successfully."
                 (Driver.heading ++ Driver.printTokens toks)).
  { intros H. apply in_app_or in H as [H|H].
    - simpl in H. destruct H as [H|[H|[]]]; discriminate.
    - simpl in H. destruct H as [H|H]; [discriminate|].
      apply in_map_iff in H as (t & H & _). discriminate. }
  pose proof (ParserFacts.sat_parse toks) as Hs. unfold sat in Hs.
  unfold parse, parse_with.
  destruct (parseProgram (S (List.length toks)) (init toks))
    as [a p|w p|u p|]; cbn [Driver.cout]; auto.
  destruct Hs as [-> _]. cbn [Driver.cout]. intros H.
  apply in_app_or in H as [H|H]; [exact (Hp H)|].
  simpl in H. destruct H as [H|[]]. discriminate.
Qed.

(** Even for a source whose tokens form a sequence of statements, which
    [parse] accepts, [main] writes the tokens and then the line of the
    failure, and nothing on [cerr]. *)
Theorem accepted_source_is_reported_failed (code : string)
    (toks : list Token) :
  Lexer.tokenize code = Some toks ->
  GrammarSpec.Statements toks ->
  Driver.main code
  = Some (Driver.Finished
            (Driver.mkStreams
               (Driver.heading ++ Driver.printTokens toks
                  ++ ["Parsing failed."])
               [])).
Proof.
  intros Htoks Hs. unfold Driver.main. rewrite Htoks.
  destruct (GrammarFacts.parse_complete toks Hs) as [p E]. rewrite E.
  rewrite <- app_assoc. reflexivity.
Qed.

Lemma accepted_source_is_reported_failed_witness :
  Driver.main "if (x) { int a; }"
  = Some (Driver.Finished
            (Driver.mkStreams
               (Driver.heading
                  ++ Driver.printTokens
                       [Keyword "if" 1; Punctuation "(" 1; Identifier "x" 1;
                        Punctuation ")" 1; Punctuation "{" 1;
                        Keyword "int" 1; Identifier "a" 1;
                        Punctuation ";" 1; Punctuation "}" 1]
                  ++ ["Parsing failed."])
               [])).
Proof.
  apply (accepted_source_is_reported_failed "if (x) { int a; }"
           [Keyword "if" 1; Punctuation "(" 1; Identifier "x" 1;
            Punctuation ")" 1; Punctuation "{" 1;
            Keyword "int" 1; Identifier "a" 1;
            Punctuation ";" 1; Punctuation "}" 1]).
  - vm_compute. reflexivity.
  - apply (GrammarSpec.Sts_cons
             [Keyword "if" 1; Punctuation "(" 1; Identifier "x" 1;
              Punctuation ")" 1; Punctuation "{" 1;
              Keyword "int" 1; Identifier "a" 1;
              Punctuation ";" 1; Punctuation "}" 1] []);
      [|apply GrammarSpec.Sts_nil].
    apply (GrammarSpec.St_if (Keyword "if" 1) (Punctuation "(" 1)
             [Identifier "x" 1] (Punctuation ")" 1) (Punctuation "{" 1)
             [Keyword "int" 1; Identifier "a" 1; Punctuation ";" 1]
             (Punctuation "}" 1)); try reflexivity.
    + apply GrammarSpec.Expr_token. reflexivity.
    + apply (GrammarSpec.Sts_cons
               [Keyword "int" 1; Identifier "a" 1; Punctuation ";" 1] []);
        [|apply GrammarSpec.Sts_nil].
      apply (GrammarSpec.St_variable (Keyword "int" 1) [Identifier "a" 1]
               (Punctuation ";" 1)); try reflexivity.
      apply GrammarSpec.Decl_last. reflexivity.
Defined.
